(** * Multi-view feature fusion of OpenSeg features on ScanNet

    A shallow embedding of [scripts/feature_fusion/scannet_openseg.py]:
    the view loop of [process_one_scene] (per-point counter, sum of
    features and visibility ledger), its finalisation (epsilon
    substitution, division, visible point ids), the already-exported
    check, and the scene list of [main].

    Tensors are lists; an exception is [None] (or [Raised]); the tensor
    element type is a [Scalar], whose instance [float32] is IEEE
    binary32 as torch's default dtype, and whose instance [rational] is
    exact arithmetic, used to tell what holds up to rounding only.

    The calls that leave the script ([torch.load], [glob], [np.loadtxt],
    [imread], [compute_mapping], [extract_openseg_img_feature],
    [save_fused_feature]) are represented by what they return or
    receive. The [breakpoint()] of line 114 stops in the debugger and
    changes no variable; it has no counterpart here.

    The second part of the properties covers what the loop does around
    the accumulators: the order of the colour frames (line 68), the pose
    and depth files of a frame (lines 86 and 90), the pixels the gather
    of line 106 reads, when the loop raises, what [save_fused_feature]
    receives, and the id range of [main]. *)

From Stdlib Require Import ZArith List String Ascii Lia Permutation.
From Stdlib Require Import SpecFloat QArith Qcanon DecimalString DecimalNat.
From stdpp Require Import base option list gmap strings sorting.

#[local] Set Warnings "-clear-no-such-hyp".

(** ** Scalars *)

(** The operations the script applies to tensor elements: the constants
    [0], [1] and [1e-5] as stored in the tensor, [+=], [/] and [==]. *)
Class Scalar (F : Type) : Type := mkScalar {
  fzero : F;
  fone : F;
  feps : F;
  fadd : F → F → F;
  fdiv : F → F → F;
  feqb : F → F → bool
}.

(** IEEE 754 binary32, round to nearest even: 24 bits of precision,
    infinities at exponent 128. *)
Definition f32_add : spec_float → spec_float → spec_float := SFadd 24 128.
Definition f32_div : spec_float → spec_float → spec_float := SFdiv 24 128.
Definition f32_zero : spec_float := S754_zero false.
Definition f32_one : spec_float := S754_finite false 8388608 (-23).
(** [1e-5] rounded to binary32: 10995116 * 2^-40. *)
Definition f32_eps : spec_float := S754_finite false 10995116 (-40).
(** The integer [z] rounded to binary32. *)
Definition f32_of_Z (z : Z) : spec_float := binary_normalize 24 128 z 0 false.

#[export] Instance float32 : Scalar spec_float := {|
  fzero := f32_zero;
  fone := f32_one;
  feps := f32_eps;
  fadd := f32_add;
  fdiv := f32_div;
  feqb := SFeqb
|}.

(** Exact arithmetic on the rationals. *)
#[export] Instance rational : Scalar Qc := {|
  fzero := 0%Qc;
  fone := 1%Qc;
  feps := Q2Qc (1 # 100000);
  fadd := Qcplus;
  fdiv := Qcdiv;
  feqb := λ x y, Qeq_bool x y
|}.

(** The number of significant bits of a positive mantissa. *)
Definition dig (p : positive) : Z := Zpos (digits2_pos p).

(** The binary32 representation of a positive integer of at most 24
    bits: the mantissa shifted to 24 bits. *)
Definition f32_canon (p : positive) : spec_float :=
  S754_finite false (Pos.shiftl p (Z.to_N (24 - dig p))) (dig p - 24).

(** The integer a binary32 value stands for, when it is one. *)
Definition f32_to_Z (x : spec_float) : option Z :=
  match x with
  | S754_zero _ => Some 0%Z
  | S754_finite s m e =>
      if (0 <=? e)%Z then Some (cond_Zopp s (Zpos m * 2 ^ e))
      else if (Zpos m mod 2 ^ (- e) =? 0)%Z
           then Some (cond_Zopp s (Zpos m / 2 ^ (- e))) else None
  | _ => None
  end.

(** ** Data *)

(** A feature field [feat_2d] of shape [(t_dim, t_h, t_w)], as
    [extract_openseg_img_feature] returns it. *)
Record Tensor3 (F : Type) : Type := mkTensor3 {
  t_dim : nat;
  t_h : nat;
  t_w : nat;
  t_at : nat → nat → nat → F
}.
Global Arguments mkTensor3 {F}.
Global Arguments t_dim {F}.
Global Arguments t_h {F}.
Global Arguments t_w {F}.
Global Arguments t_at {F}.

(** One colour frame of the scene, by what the two calls of the loop
    body return for it: [point2img_mapper.compute_mapping(pose, locs_in,
    depth)], one row [(mapping[p, 1], mapping[p, 2], mapping[p, 3])] per
    point, that is a pixel (row, column) and a visibility flag; and
    [extract_openseg_img_feature(img_dir, ...)], the feature field. *)
Record View (F : Type) : Type := mkView {
  mapping : list (Z * Z * Z);
  feat_2d : Tensor3 F
}.
Global Arguments mkView {F}.
Global Arguments mapping {F}.
Global Arguments feat_2d {F}.

(** The mutable state of the view loop, and the image ids for which
    [extract_openseg_img_feature] has been called. *)
Record Acc (F : Type) : Type := mkAcc {
  counter : list F;
  sum_features : list (list F);
  vis_id : list (list Z);
  extract_calls : list nat
}.
Global Arguments mkAcc {F}.
Global Arguments counter {F}.
Global Arguments sum_features {F}.
Global Arguments vis_id {F}.
Global Arguments extract_calls {F}.

(** Where line 101-104 takes [feat_2d] from. *)
Inductive FeatSource : Type :=
| OnTheFly   (* keep_features_in_memory is False: extract in the loop *)
| Cached     (* img_features was filled before the loop *)
| Undefined. (* keep_features_in_memory, openseg_model is None: img_features is unbound *)

(** The fields of [args] that [process_one_scene] reads. *)
Record Args : Type := mkArgs {
  num_rand_file_per_scene : nat;
  feat_dim : nat;
  keep_features_in_memory : bool;
  openseg_model : bool;       (* openseg_model is not None *)
  data_root_2d : string;
  n_split_points : Z
}.

(** The call [save_fused_feature(feat_bank, point_ids, n_points, out_dir, scene_id, args)]. *)
Record SaveCall (F : Type) : Type := mkSaveCall {
  feat_bank : list (list F);
  point_ids : list nat;
  sv_n_points : nat;
  sv_out_dir : string;
  sv_scene_id : string
}.
Global Arguments mkSaveCall {F}.
Global Arguments feat_bank {F}.
Global Arguments point_ids {F}.
Global Arguments sv_n_points {F}.
Global Arguments sv_out_dir {F}.
Global Arguments sv_scene_id {F}.

(** How a call of [process_one_scene] ends. *)
Inductive Outcome (F : Type) : Type :=
| Raised                                  (* an exception leaves the function *)
| AlreadyDone                             (* [return 1], line 64 *)
| Saved (call : SaveCall F) (extracted : list nat).
Global Arguments Raised {F}.
Global Arguments AlreadyDone {F}.
Global Arguments Saved {F}.

(** What the script reads from disk: the paths that exist, the number of
    points of each point-cloud file ([torch.load(data_path)[0].shape[0]]),
    and the sorted colour frames under each 2D scene directory. *)
Record World (F : Type) : Type := mkWorld {
  files : gset string;
  point_clouds : gmap string nat;
  scene_views : gmap string (list (View F))
}.
Global Arguments mkWorld {F}.
Global Arguments files {F}.
Global Arguments point_clouds {F}.
Global Arguments scene_views {F}.

(** ** Strings and paths *)

Definition slash : ascii := "/"%char.

Fixpoint has_slash (s : string) : bool :=
  match s with
  | EmptyString => false
  | String c s' => if Ascii.eqb c slash then true else has_slash s'
  end.

(** [s.split("/")[-1]] *)
Fixpoint last_component (s : string) : string :=
  match s with
  | EmptyString => EmptyString
  | String c s' =>
      if has_slash s' then last_component s'
      else if Ascii.eqb c slash then s' else s
  end.

(** [s.split(sep)[0]] for a non-empty [sep] *)
Fixpoint before_sep (sep s : string) : string :=
  match s with
  | EmptyString => EmptyString
  | String c s' => if String.prefix sep s then EmptyString else String c (before_sep sep s')
  end.

(** [data_path.split("/")[-1].split("_vh")[0]], line 41 *)
Definition scene_id_of (data_path : string) : string :=
  before_sep "_vh" (last_component data_path).

Fixpoint ends_with_slash (s : string) : bool :=
  match s with
  | EmptyString => false
  | String c EmptyString => Ascii.eqb c slash
  | String _ s' => ends_with_slash s'
  end.

(** One round of [posixpath.join]'s loop. *)
Definition join_step (path b : string) : string :=
  if String.prefix "/" b then b
  else if ends_with_slash path || bool_decide (path = EmptyString) then path +:+ b
  else path +:+ "/" +:+ b.

(** [os.path.join(a, *p)] *)
Definition join (a : string) (p : list string) : string := foldl join_step a p.

(** ["%d" % n] *)
Definition fmt_d (n : nat) : string := NilEmpty.string_of_uint (Nat.to_uint n).

(** [scene_id + "_%d.pt" % n] *)
Definition shard_name (scene_id : string) (n : nat) : string :=
  scene_id +:+ "_" +:+ fmt_d n +:+ ".pt".

(** [s.split(",")], on a single-character separator. *)
Fixpoint split_on (sep : ascii) (s : string) : list string :=
  match s with
  | EmptyString => [EmptyString]
  | String c s' =>
      if Ascii.eqb c sep then EmptyString :: split_on sep s'
      else match split_on sep s' with
           | [] => [String c EmptyString]
           | w :: ws => String c w :: ws
           end
  end.

(** ** The view loop *)

(** A Python index into a dimension of [size]: negative indices count
    from the end, anything else out of range raises. *)
Definition py_index (size : nat) (i : Z) : option nat :=
  if bool_decide (0 ≤ i < Z.of_nat size)%Z then Some (Z.to_nat i)
  else if bool_decide (- Z.of_nat size ≤ i < 0)%Z then Some (Z.to_nat (i + Z.of_nat size))
  else None.

(** The visibility column [mapping[:, 3]]. *)
Definition mask_of (m : list (Z * Z * Z)) : list Z := (λ t, t.2) <$> m.

(** [mapping[:, 3].sum()]; the flags are 0 or 1, so the int64 sum of a
    column cannot wrap. *)
Definition mask_sum (m : list (Z * Z * Z)) : Z := foldr Z.add 0%Z (mask_of m).

(** Line 95: no point corresponds to this image. *)
Definition skipped {F} (v : View F) : bool := (mask_sum (mapping v) =? 0)%Z.

(** [m.nonzero(as_tuple=False)]: the (row, column) indices of the
    non-zero entries, row by row. *)
Definition nonzero (m : list (list Z)) : list (nat * nat) :=
  mjoin (imap (λ i row, (λ jx, (i, jx.1)) <$> filter (λ jx, jx.2 ≠ 0%Z) (imap pair row)) m).

Fixpoint insert_unique (x : nat) (l : list nat) : list nat :=
  match l with
  | [] => [x]
  | y :: l' =>
      if (x <? y)%nat then x :: l
      else if (x =? y)%nat then l
      else y :: insert_unique x l'
  end.

(** [torch.unique] of a 1-D integer tensor: its distinct elements,
    sorted. *)
Definition unique (l : list nat) : list nat := foldr insert_unique [] l.

Section Fusion.
Context {F : Type} `{Scalar F}.

(** [feat_2d[:, r, c]] for one pixel. *)
Definition gather_row (t : Tensor3 F) (r c : Z) : option (list F) :=
  r' ← py_index (t_h t) r;
  c' ← py_index (t_w t) c;
  Some ((λ d, t_at t d r' c') <$> seq 0 (t_dim t)).

(** [feat_2d[:, mapping[:, 1], mapping[:, 2]].permute(1, 0)], line 106 *)
Definition gather (t : Tensor3 F) (m : list (Z * Z * Z)) : option (list (list F)) :=
  mapM (λ rcm, gather_row t rcm.1.1 rcm.1.2) m.

(** One selected row of [sum_features[mask != 0] += feat_2d_3d[mask != 0]]:
    the in-place add broadcasts a feature of length 1 and rejects any
    other length that differs. *)
Definition row_add (s v : list F) : option (list F) :=
  if (length v =? length s)%nat then Some (zip_with fadd s v)
  else match v with
       | [x] => Some ((λ a, fadd a x) <$> s)
       | _ => None
       end.

(** [counter[mask != 0] += 1], line 108 *)
Definition bump (counter : list F) (mask : list Z) : list F :=
  zip_with (λ c m, if bool_decide (m ≠ 0%Z) then fadd c fone else c) counter mask.

(** [sum_features[mask != 0] += feat_2d_3d[mask != 0]], line 109 *)
Fixpoint accumulate (sums feats : list (list F)) (mask : list Z) : option (list (list F)) :=
  match sums, feats, mask with
  | s :: sums', v :: feats', m :: mask' =>
      s' ← (if bool_decide (m ≠ 0%Z) then row_add s v else Some s);
      rest ← accumulate sums' feats' mask';
      Some (s' :: rest)
  | _, _, _ => Some []
  end.

(** [vis_id[:, img_id] = mask], line 100 *)
Definition set_column (img_id : nat) (mask : list Z) (vis : list (list Z)) : list (list Z) :=
  zip_with (λ row m, <[img_id := m]> row) vis mask.

(** The body of the loop for one frame, lines 85-109; [skip] is the
    test of line 95, which the driver always makes. *)
Definition fuse_view_gen (skip : bool) (src : FeatSource) (n_points : nat)
    (st : Acc F) (img_id : nat) (v : View F) : option (Acc F) :=
  if negb (length (mapping v) =? n_points)%nat then None
  else if skip && skipped v then Some st
  else
    let mask := mask_of (mapping v) in
    let vis := set_column img_id mask (vis_id st) in
    calls ← match src with
            | OnTheFly => Some (extract_calls st ++ [img_id])
            | Cached => Some (extract_calls st)
            | Undefined => None
            end;
    feat_2d_3d ← gather (feat_2d v) (mapping v);
    sums ← accumulate (sum_features st) feat_2d_3d mask;
    Some (mkAcc (bump (counter st) mask) sums vis calls).

(** The loop of line 84 from image [img_id] on. *)
Fixpoint fuse_from_gen (skip : bool) (src : FeatSource) (n_points img_id : nat)
    (img_dirs : list (View F)) (st : Acc F) : option (Acc F) :=
  match img_dirs with
  | [] => Some st
  | v :: rest =>
      st' ← fuse_view_gen skip src n_points st img_id v;
      fuse_from_gen skip src n_points (S img_id) rest st'
  end.

Definition fuse_view := fuse_view_gen true.
Definition fuse_from := fuse_from_gen true.

(** Lines 79-83: zero accumulators, and the calls the pre-fetch of lines
    74-77 has made. *)
Definition init_acc (n_points feat_dim num_img : nat) (prefetched : list nat) : Acc F :=
  mkAcc (replicate n_points fzero)
        (replicate n_points (replicate feat_dim fzero))
        (replicate n_points (replicate num_img 0%Z))
        prefetched.

(** Lines 79-109. *)
Definition fuse_views (src : FeatSource) (n_points feat_dim : nat)
    (img_dirs : list (View F)) (prefetched : list nat) : option (Acc F) :=
  fuse_from src n_points 0 img_dirs (init_acc n_points feat_dim (length img_dirs) prefetched).

(** The loop without the test of line 95: every frame is processed. *)
Definition fuse_views_noskip (src : FeatSource) (n_points feat_dim : nat)
    (img_dirs : list (View F)) (prefetched : list nat) : option (Acc F) :=
  fuse_from_gen false src n_points 0 img_dirs
    (init_acc n_points feat_dim (length img_dirs) prefetched).

(** ** Finalisation, lines 111-113 *)

(** [counter[counter == 0] = 1e-5], in place. *)
Definition eps_floor (counter : list F) : list F :=
  (λ c, if feqb c fzero then feps else c) <$> counter.

(** [sum_features / counter], with [counter] of shape [(n, 1)]. *)
Definition divide (sums : list (list F)) (counter : list F) : list (list F) :=
  zip_with (λ row c, (λ s, fdiv s c) <$> row) sums counter.

(** [torch.unique(vis_id.nonzero(as_tuple=False)[:, 0])] *)
Definition visible_ids (vis : list (list Z)) : list nat := unique ((nonzero vis).*1).

(** The accumulator after line 111, and the two outputs. *)
Definition finalize (st : Acc F) : Acc F * (list (list F) * list nat) :=
  let counter' := eps_floor (counter st) in
  (mkAcc counter' (sum_features st) (vis_id st) (extract_calls st),
   (divide (sum_features st) counter', visible_ids (vis_id st))).

(** ** What the loop computes, point by point *)

(** [k] increments of a zero counter. *)
Definition fcount (k : nat) : F := Nat.iter k (λ c, fadd c fone) fzero.

(** The flag [mapping[p, 3]] of point [p] in a frame. *)
Definition mask_at (v : View F) (p : nat) : Z := default 0%Z (mask_of (mapping v) !! p).

(** The feature gathered for point [p] in a frame, [feat_2d_3d[p]]. *)
Definition feat_at (v : View F) (p : nat) : list F :=
  default [] (rcm ← mapping v !! p; gather_row (feat_2d v) rcm.1.1 rcm.1.2).

(** The frame passes the test of line 95 (or the test is not made). *)
Definition processed (skip : bool) (v : View F) : bool := negb (skip && skipped v).

(** The frame adds to the accumulators of point [p]. *)
Definition sees (skip : bool) (p : nat) (v : View F) : bool :=
  processed skip v && bool_decide (mask_at v p ≠ 0%Z).

(** The features added to [sum_features[p]], in the order of the frames. *)
Definition addends (skip : bool) (p : nat) (img_dirs : list (View F)) : list (list F) :=
  (λ v, feat_at v p) <$> filter (λ v, sees skip p v = true) img_dirs.

(** [row_add] where it is defined. *)
Definition radd (s v : list F) : list F := default s (row_add s v).

(** The summand that [radd] adds at index [j] of a row of [n] sums. *)
Definition coef (n : nat) (a : list F) (j : nat) : option F :=
  if (length a =? n)%nat then a !! j
  else match a with [x] => Some x | _ => None end.

(** Row [p] of [vis_id] after the frames [img_dirs], numbered from [img_id]. *)
Fixpoint set_cols (skip : bool) (p img_id : nat) (img_dirs : list (View F)) (row : list Z)
    : list Z :=
  match img_dirs with
  | [] => row
  | v :: rest =>
      set_cols skip p (S img_id) rest
        (if processed skip v then <[img_id := mask_at v p]> row else row)
  end.

(** The image ids of the frames processed, numbered from [img_id]. *)
Fixpoint calls_of (skip : bool) (img_id : nat) (img_dirs : list (View F)) : list nat :=
  match img_dirs with
  | [] => []
  | v :: rest => (if processed skip v then [img_id] else []) ++ calls_of skip (S img_id) rest
  end.

(** The frames in which point [p] is visible. *)
Definition seen_in (p : nat) (img_dirs : list (View F)) : list (View F) :=
  filter (λ v, mask_at v p ≠ 0%Z) img_dirs.

(** Modelled from the spec: [compute_mapping] is defined in
    [fusion_util], which is not among the sources; the spec's Projector
    returns a binary visibility mask. The visibility flags of a frame
    are 0 or 1. *)
Definition binary_mask (v : View F) : Prop :=
  Forall (λ m, m = 0%Z ∨ m = 1%Z) (mask_of (mapping v)).

(** The frame can be fused into accumulators of [n_points] rows of
    [feat_dim] features without an exception. *)
Definition view_ok (skip : bool) (src : FeatSource) (n_points feat_dim : nat) (v : View F)
    : Prop :=
  length (mapping v) = n_points ∧
  (processed skip v = true →
     src ≠ Undefined ∧ is_Some (gather (feat_2d v) (mapping v)) ∧
     (t_dim (feat_2d v) = feat_dim ∨ t_dim (feat_2d v) = 1%nat ∨
      ∀ p, mask_at v p = 0%Z)).

(** The accumulators have [n_points] rows, of [feat_dim] features. *)
Definition acc_shape (n_points feat_dim : nat) (st : Acc F) : Prop :=
  length (counter st) = n_points ∧
  length (sum_features st) = n_points ∧
  length (vis_id st) = n_points ∧
  Forall (λ s, length s = feat_dim) (sum_features st).

(** ** process_one_scene *)

(** [exists(join(out_dir, scene_id + "_%d.pt" % n))] *)
Definition shard_exists (w : World F) (out_dir scene_id : string) (n : nat) : bool :=
  bool_decide (join out_dir [shard_name scene_id n] ∈ files w).

(** Lines 55-62. *)
Definition n_finished (w : World F) (out_dir scene_id : string) (n_interval : nat) : nat :=
  length (filter (λ n, shard_exists w out_dir scene_id n = true) (seq 0 n_interval)).

Definition feat_source (args : Args) : FeatSource :=
  if keep_features_in_memory args
  then (if openseg_model args then Cached else Undefined)
  else OnTheFly.

(** Lines 74-77: with [keep_features_in_memory] and a model, every
    frame's features are extracted before the loop. *)
Definition prefetch (args : Args) (num_img : nat) : list nat :=
  if keep_features_in_memory args && openseg_model args then seq 0 num_img else [].

(** Lines 66-116 for a scene of [n_points] points: the fusion from zero
    accumulators over every frame, and the call of [save_fused_feature]. *)
Definition fuse_and_save (w : World F) (scene_id out_dir : string) (n_points : nat)
    (args : Args) : Outcome F :=
  let img_dirs := default [] (scene_views w !! join (data_root_2d args) [scene_id]) in
  match fuse_views (feat_source args) n_points (feat_dim args) img_dirs
          (prefetch args (length img_dirs)) with
  | None => Raised
  | Some st =>
      let '(st', (bank, ids)) := finalize st in
      Saved (mkSaveCall bank ids n_points out_dir scene_id) (extract_calls st')
  end.

Definition process_one_scene (w : World F) (data_path out_dir : string) (args : Args)
    : Outcome F :=
  let scene_id := scene_id_of data_path in
  match point_clouds w !! data_path with
  | None => Raised
  | Some n_points =>
      let n_interval := num_rand_file_per_scene args in
      if (n_finished w out_dir scene_id n_interval =? n_interval)%nat then AlreadyDone
      else fuse_and_save w scene_id out_dir n_points args
  end.

(** ** main *)

(** Lines 135-155: the fields [main] sets on [args]. *)
Definition configure (split : string) (has_model : bool) (data_dir : string) : Args :=
  {| num_rand_file_per_scene := if bool_decide (split = "train") then 5 else 1;
     feat_dim := 768;
     keep_features_in_memory := false;
     openseg_model := has_model;
     data_root_2d := join data_dir ["scannet_2d"];
     n_split_points := if bool_decide (split = "train") then 20000%Z else 2000000%Z |}.

(** Line 182; the glob of line 181 is commented out. *)
Definition data_paths (data_dir split : string) : list string :=
  [join (join data_dir ["scannet_3d"]) [split; "scene0479_00_vh_clean_2.pth"]].

(** Lines 185-187; [py_int] is Python's [int] on strings. *)
Definition parse_id_range (py_int : string → option Z) (process_id_range : option (list string))
    : option (option (Z * Z)) :=
  match process_id_range with
  | None => Some None
  | Some [] => None
  | Some (r :: _) =>
      lo ← split_on "," r !! 0%nat ≫= py_int;
      hi ← split_on "," r !! 1%nat ≫= py_int;
      Some (Some (lo, hi))
  end.

(** Lines 188-193 from index [i] on: the calls of [process_one_scene]
    made, in order, until one raises. *)
Fixpoint run_scenes (w : World F) (out_dir : string) (args : Args)
    (id_range : option (Z * Z)) (i : nat) (paths : list string)
    : list (string * Outcome F) :=
  match paths with
  | [] => []
  | path :: rest =>
      let skip := match id_range with
                  | Some (lo, hi) => bool_decide (Z.of_nat i < lo)%Z || bool_decide (Z.of_nat i > hi)%Z
                  | None => false
                  end in
      if skip then run_scenes w out_dir args id_range (S i) rest
      else
        let o := process_one_scene w path out_dir args in
        (path, o) :: match o with
                     | Raised => []
                     | _ => run_scenes w out_dir args id_range (S i) rest
                     end
  end.

(** The calls of [process_one_scene] that [main] makes. *)
Definition main (py_int : string → option Z) (w : World F)
    (data_dir split output_dir : string) (has_model : bool)
    (process_id_range : option (list string)) : list (string * Outcome F) :=
  match parse_id_range py_int process_id_range with
  | None => []
  | Some id_range =>
      run_scenes w output_dir (configure split has_model data_dir) id_range 0
        (data_paths data_dir split)
  end.

End Fusion.

(** The two outputs of line 112 and 113. *)
Abbreviation feat_bank_of st := ((finalize st).2.1).
Abbreviation point_ids_of st := ((finalize st).2.2).

(** ** The pixels of a frame *)

(** The pixel of a mapping row lies in the feature field [t], counting
    Python's negative indices: the condition under which
    [feat_2d[:, r, c]] does not raise. *)
Definition in_field {F} (t : Tensor3 F) (rcm : Z * Z * Z) : Prop :=
  (- Z.of_nat (t_h t) ≤ rcm.1.1 < Z.of_nat (t_h t))%Z ∧
  (- Z.of_nat (t_w t) ≤ rcm.1.2 < Z.of_nat (t_w t))%Z.

(** ** The files of a frame, lines 68, 86 and 90 *)

(** [c in s] for a character. *)
Fixpoint has_char (c : ascii) (s : string) : bool :=
  match s with
  | EmptyString => false
  | String x s' => Ascii.eqb x c || has_char c s'
  end.

(** [pat in s] *)
Fixpoint occurs (pat s : string) : bool :=
  String.prefix pat s ||
  match s with
  | EmptyString => false
  | String _ s' => occurs pat s'
  end.

(** [s.replace(old, new)] for a non-empty [old]: the occurrences of
    [old] that do not overlap, found from the left, each become [new].
    [skip] counts the characters of an occurrence just replaced that are
    still to be passed over. *)
Fixpoint replace_from (old new : string) (skip : nat) (s : string) : string :=
  match s with
  | EmptyString => EmptyString
  | String c s' =>
      match skip with
      | S k => replace_from old new k s'
      | O =>
          if String.prefix old s
          then new +:+ replace_from old new (String.length old - 1) s'
          else String c (replace_from old new 0 s')
      end
  end.

Definition replace (old new s : string) : string := replace_from old new 0 s.

(** [img_dir.replace("color", "pose").replace(".jpg", ".txt")], line 86 *)
Definition posepath (img_dir : string) : string :=
  replace ".jpg" ".txt" (replace "color" "pose" img_dir).

(** [img_dir.replace("color", "depth").replace("jpg", "png")], the file
    line 90 reads. *)
Definition depthpath (img_dir : string) : string :=
  replace "jpg" "png" (replace "color" "depth" img_dir).

(** [s[:-4]] *)
Definition drop_last4 (s : string) : string :=
  String.substring 0 (String.length s - 4) s.

(** The sort key of line 68, [int(os.path.basename(x)[:-4])];
    [os.path.basename] is the part after the last slash, and [py_int]
    is Python's [int] on strings. *)
Definition frame_key (py_int : string → option Z) (x : string) : option Z :=
  py_int (drop_last4 (last_component x)).

(** [sorted(l, key=key)]: the key of every element is computed first
    (an exception in one of them leaves [sorted]), and the elements are
    put in non-decreasing order of their keys, those of equal keys in
    the order they had (the sort is stable). *)
Fixpoint insert_by_key {A} (k : Z) (x : A) (l : list (Z * A)) : list (Z * A) :=
  match l with
  | [] => [(k, x)]
  | ky :: l' => if (k <=? ky.1)%Z then (k, x) :: l else ky :: insert_by_key k x l'
  end.

Definition sort_keyed {A} (l : list (Z * A)) : list (Z * A) :=
  foldr (λ kx acc, insert_by_key kx.1 kx.2 acc) [] l.

Definition sorted_by_key {A} (key : A → option Z) (l : list A) : option (list A) :=
  keys ← mapM key l;
  Some ((sort_keyed (zip keys l)).*2).

(** Line 68, from the list [glob(join(scene, "color/*"))] returns. *)
Definition img_dirs_of (py_int : string → option Z) (globbed : list string)
    : option (list string) :=
  sorted_by_key (frame_key py_int) globbed.

(** The colour frame of number [n] under a scene directory, as the
    glob pattern [color/*], the slice [[:-4]] and the replacement of
    [.jpg] expect it. *)
Definition frame_path (scene : string) (n : nat) : string :=
  scene +:+ "/color/" +:+ fmt_d n +:+ ".jpg".

(** Python's [int] on a non-empty string of ASCII digits. [int] accepts
    more (a sign, blanks around, underscores between digits); on those
    strings this function gives [None], so it stands for [int] only
    where the examples use it, on digit strings. *)
Definition int_of_digits (s : string) : option Z :=
  if bool_decide (s = EmptyString) then None
  else (λ d, Z.of_nat (Nat.of_uint d)) <$> NilEmpty.uint_of_string s.

(** ** The scenes an id range selects *)

(** The negation of the test of line 189: index [i] is processed. *)
Definition in_id_range (id_range : option (Z * Z)) (i : nat) : bool :=
  match id_range with
  | None => true
  | Some (lo, hi) => bool_decide (lo ≤ Z.of_nat i ≤ hi)%Z
  end.

(** The paths whose index passes that test, in order. *)
Definition selected (id_range : option (Z * Z)) (paths : list string) : list string :=
  (filter (λ ip, in_id_range id_range ip.1 = true) (zip (seq 0 (length paths)) paths)).*2.

(** ** The claims as stated, and example scenes *)

#[global] Instance binary_mask_dec {F : Type} (v : View F) : Decision (binary_mask v) :=
  Forall_dec (λ m, m = 0%Z ∨ m = 1%Z) (mask_of (mapping v)).

(** The claim that finalisation leaves its inputs alone. *)
Definition finalize_leaves_inputs (st : Acc spec_float) : Prop :=
  counter (finalize st).1 = counter st ∧
  sum_features (finalize st).1 = sum_features st ∧
  (finalize (finalize st).1).2 = (finalize st).2.

(** The invariant as claimed: non-negative counters and sums, and a
    zero counter exactly on all-zero rows. *)
Definition claimed_invariant (N : nat) (st : Acc spec_float) : Prop :=
  length (counter st) = N ∧ length (sum_features st) = N ∧
  Forall (λ c, SFleb f32_zero c = true) (counter st) ∧
  Forall (Forall (λ x, SFleb f32_zero x = true)) (sum_features st) ∧
  ∀ p c s, counter st !! p = Some c → sum_features st !! p = Some s →
    (SFeqb c f32_zero = true ↔ Forall (λ x, SFeqb x f32_zero = true) s).

(** One point, one feature, no frame. *)
Definition unseen_point : Acc spec_float := init_acc 1 1 0 [].

(** A frame of one point, visible at pixel (0, 0), whose feature field
    is [x] everywhere. *)
Definition one_point_view (x : spec_float) : View spec_float :=
  mkView [(0, 0, 1)%Z] (mkTensor3 1 2 2 (λ _ _ _, x)).

(** One point seen in two frames, with features 3 and 5. *)
Definition two_frames : list (View spec_float) :=
  [one_point_view (f32_of_Z 3); one_point_view (f32_of_Z 5)].

(** Three frames of one point: a feature of 32768 and twice one of
    2^-9, all exact in binary16 and binary32. *)
Definition frame_big : View spec_float := one_point_view (f32_of_Z 32768).
Definition frame_small : View spec_float :=
  one_point_view (f32_div f32_one (f32_of_Z 512)).

(** The feature bank of a scene of one point, if the loop runs through. *)
Definition bank_of (vs : list (View spec_float)) : option (list (list spec_float)) :=
  (λ st, feat_bank_of st) <$> fuse_views OnTheFly 1 1 vs [].

(** One point seen with the integer feature [x], in exact arithmetic. *)
Definition exact_view (x : Z) : View Qc :=
  mkView [(0, 0, 1)%Z] (mkTensor3 1 2 2 (λ _ _ _, Q2Qc (inject_Z x))).

(** Three points and a frame of constant feature 3 that sees point 0
    only; a frame that sees nothing; and the first frame again with
    other pixels for the two points it does not see. *)
Definition frame_first_only : View spec_float :=
  mkView [(0, 0, 1); (0, 0, 0); (0, 0, 0)]%Z (mkTensor3 2 4 4 (λ _ _ _, f32_of_Z 3)).
Definition frame_blind : View spec_float :=
  mkView [(0, 0, 0); (0, 0, 0); (0, 0, 0)]%Z (mkTensor3 2 4 4 (λ _ _ _, f32_of_Z 7)).
Definition frame_first_only' : View spec_float :=
  mkView [(0, 0, 1); (3, 1, 0); (-1, 2, 0)]%Z (mkTensor3 2 4 4 (λ _ _ _, f32_of_Z 3)).

(** The arguments [main] builds for the validation split. *)
Definition val_args : Args := configure "val" true "data".

(** A disk with the validation point cloud of scene0479_00 (3 points),
    no colour frame and no shard. *)
Definition empty_scene : World spec_float :=
  mkWorld ∅ {[ "data/scannet_3d/val/scene0479_00_vh_clean_2.pth" := 3 ]} ∅.


(** A feature field of one channel, 2 rows and 3 columns, whose value
    at pixel (r, c) is [3 r + c]. *)
Definition numbered_field : Tensor3 spec_float :=
  mkTensor3 1 2 3 (λ _ r c, f32_of_Z (Z.of_nat (3 * r + c))).

(** ** Tactics *)

Ltac zfold :=
  change IntDef.Z.max with Z.max in *; change IntDef.Z.min with Z.min in *;
  change IntDef.Z.add with Z.add in *; change IntDef.Z.sub with Z.sub in *;
  change IntDef.Z.leb with Z.leb in *; change IntDef.Z.eqb with Z.eqb in *;
  change IntDef.Z.opp with Z.opp in *.

Ltac by_computation := apply (bool_decide_unpack _); vm_compute; exact I.

(** No character of one literal string occurs in another. *)
Ltac no_common_char :=
  let c := fresh "c" in let Hc := fresh "Hc" in
  intros c Hc; cbn [has_char] in Hc;
  repeat (apply orb_true_iff in Hc as [Hc|Hc];
          [apply Ascii.eqb_eq in Hc; subst c; reflexivity|]);
  discriminate Hc.

(** * Properties *)

(** ** Counting in binary32 *)

Section Binary32.
Local Open Scope Z_scope.

Lemma iter_pos_iter {A} (f : A -> A) n : forall x, SpecFloat.iter_pos f n x = Pos.iter f x n.
Proof.
  induction n as [n IH|n IH|]; intros x; simpl.
  - rewrite !IH. rewrite <- !Pos.iter_swap. reflexivity.
  - rewrite !IH. reflexivity.
  - reflexivity.
Qed.

Lemma digits2_shift p k : digits2_pos (Pos.iter xO p k) = (digits2_pos p + k)%positive.
Proof.
  induction k using Pos.peano_ind.
  - simpl. lia.
  - rewrite Pos.iter_succ. simpl. rewrite IHk. lia.
Qed.

Lemma shift_add p q k : (Pos.iter xO p k + Pos.iter xO q k = Pos.iter xO (p + q) k)%positive.
Proof.
  induction k using Pos.peano_ind.
  - simpl. lia.
  - rewrite !Pos.iter_succ. rewrite <- IHk. lia.
Qed.

Lemma shr_exact r k :
  SpecFloat.iter_pos shr_1 k {| shr_m := Zpos (Pos.iter xO r k); shr_r := false; shr_s := false |}
  = {| shr_m := Zpos r; shr_r := false; shr_s := false |}.
Proof.
  rewrite iter_pos_iter. revert r.
  induction k using Pos.peano_ind; intros r.
  - reflexivity.
  - rewrite Pos.iter_succ_r, Pos.iter_succ.
    change (shr_1 {| shr_m := Zpos (xO (Pos.iter xO r k)); shr_r := false; shr_s := false |})
      with {| shr_m := Zpos (Pos.iter xO r k); shr_r := false; shr_s := false |}.
    apply IHk.
Qed.

Lemma shiftl_iter p k : Pos.shiftl p (Npos k) = Pos.iter xO p k.
Proof. reflexivity. Qed.

Lemma aux_canon m e : dig m = 24 -> -149 <= e <= 104 ->
  binary_round_aux 24 128 false (Zpos m) e loc_Exact = S754_finite false m e.
Proof.
  intros Hd He. unfold binary_round_aux, shr_fexp, fexp, emin.
  cbn [Zdigits2]. zfold. fold (dig m). rewrite Hd.
  replace (Z.max (24 + e - 24) (3 - 128 - 24) - e) with 0 by lia.
  cbn [shr shr_record_of_loc shr_m loc_of_shr_record round_nearest_even Zdigits2].
  fold (dig m). rewrite Hd.
  replace (Z.max (24 + e - 24) (3 - 128 - 24) - e) with 0 by lia.
  cbn [shr shr_m]. zfold.
  destruct (Z.leb_spec e (128 - 24)); [reflexivity | lia].
Qed.

Lemma dig_shiftl p n : dig (Pos.shiftl p n) = dig p + Z.of_N n.
Proof.
  destruct n as [|k]; [change (Pos.shiftl p 0) with p; lia|].
  rewrite shiftl_iter. unfold dig. rewrite digits2_shift. lia.
Qed.

Lemma round_canon p : dig p <= 24 -> binary_round 24 128 false p 0 = f32_canon p.
Proof.
  intros Hd. unfold f32_canon, binary_round, fexp, emin. zfold. fold (dig p).
  assert (H1 : 1 <= dig p) by (unfold dig; lia).
  replace (Z.max (dig p + 0 - 24) (3 - 128 - 24)) with (dig p - 24) by lia.
  unfold shl_align. zfold.
  destruct (dig p - 24 - 0) eqn:E; try lia.
  - replace (24 - dig p) with 0 by lia. change (Pos.shiftl p (Z.to_N 0)) with p.
    replace (dig p - 24) with 0 by lia.
    apply aux_canon; lia.
  - replace (Z.to_N (24 - dig p)) with (Npos p0) by lia. rewrite shiftl_iter.
    apply aux_canon; [|lia].
    rewrite <- shiftl_iter, dig_shiftl. lia.
Qed.


Lemma aux_shifted m k e : dig m = 24 -> -149 <= e + Zpos k <= 104 ->
  binary_round_aux 24 128 false (Zpos (Pos.iter xO m k)) e loc_Exact
  = S754_finite false m (e + Zpos k).
Proof.
  intros Hd He. unfold binary_round_aux, shr_fexp, fexp, emin.
  cbn [Zdigits2]. zfold. rewrite digits2_shift.
  replace (Z.pos (digits2_pos m + k)) with (24 + Zpos k) by (unfold dig in Hd; lia).
  replace (Z.max (24 + Zpos k + e - 24) (3 - 128 - 24) - e) with (Zpos k) by lia.
  cbn [shr shr_record_of_loc]. rewrite shr_exact.
  cbn [shr_m loc_of_shr_record round_nearest_even Zdigits2 shr_record_of_loc].
  fold (dig m). rewrite Hd. zfold.
  replace (Z.max (24 + (e + Zpos k) - 24) (3 - 128 - 24) - (e + Zpos k)) with 0 by lia.
  cbn [shr shr_m]. zfold.
  destruct (Z.leb_spec (e + Zpos k) (128 - 24)); [reflexivity | lia].
Qed.

Lemma shiftl_shiftl p a b : Pos.shiftl (Pos.shiftl p a) b = Pos.shiftl p (a + b).
Proof.
  destruct a as [|a], b as [|b]; try reflexivity.
  change (Pos.iter xO (Pos.iter xO p a) b = Pos.iter xO p (a + b)).
  rewrite Pos.add_comm. symmetry. apply Pos.iter_add.
Qed.

Lemma round_shifted q : 2 <= dig q <= 24 ->
  binary_round 24 128 false (Pos.iter xO q 23) (-23) = f32_canon q.
Proof.
  intros Hd. unfold binary_round, fexp, emin. zfold. rewrite digits2_shift.
  replace (Z.pos (digits2_pos q + 23)) with (dig q + 23) by (unfold dig; lia).
  replace (Z.max (dig q + 23 + -23 - 24) (3 - 128 - 24)) with (dig q - 24) by lia.
  unfold shl_align. zfold.
  destruct (dig q - 24 - -23) as [|k|k] eqn:E; try lia.
  replace (Pos.iter xO q 23) with (Pos.iter xO (Pos.shiftl q (Z.to_N (24 - dig q))) k).
  2:{ rewrite <- !shiftl_iter, shiftl_shiftl. f_equal. lia. }
  rewrite aux_shifted.
  - unfold f32_canon. f_equal. lia.
  - rewrite dig_shiftl. lia.
  - lia.
Qed.

Lemma dig_bounds p : 2 ^ (dig p - 1) <= Zpos p < 2 ^ dig p.
Proof.
  unfold dig. induction p as [p IH|p IH|]; cbn [digits2_pos]; [| |simpl; lia].
  all: rewrite Pos2Z.inj_succ;
    replace (Z.succ (Zpos (digits2_pos p)) - 1) with (Z.succ (Zpos (digits2_pos p) - 1)) by lia;
    rewrite !Z.pow_succ_r by lia; lia.
Qed.

Lemma dig_le p n : 0 <= n -> Zpos p < 2 ^ n -> dig p <= n.
Proof.
  intros Hn Hp. destruct (Z.le_gt_cases (dig p) n) as [|Hb]; [assumption|].
  pose proof (dig_bounds p) as [Hlo _].
  assert (2 ^ n <= 2 ^ (dig p - 1)) by (apply Z.pow_le_mono_r; lia). lia.
Qed.

Lemma dig_succ p : dig p <= 24 -> dig (p + 1) <= 24 \/ (p + 1 = 16777216)%positive.
Proof.
  intros Hd. pose proof (dig_bounds p) as [_ Hhi].
  assert (2 ^ dig p <= 2 ^ 24) by (apply Z.pow_le_mono_r; lia).
  change (2 ^ 24) with 16777216 in *.
  destruct (Z.eq_dec (Zpos (p + 1)) 16777216) as [E|E]; [right; congruence|left].
  apply dig_le; [lia|]. change (2 ^ 24) with 16777216. lia.
Qed.

Lemma add_one_canon p : dig p <= 24 ->
  f32_add (f32_canon p) f32_one = binary_round 24 128 false (p + 1) 0.
Proof.
  intros Hd. assert (H1 : 1 <= dig p) by (unfold dig; lia).
  unfold f32_add, f32_canon, f32_one, SFadd. zfold.
  replace (Z.min (dig p - 24) (-23)) with (-23) by lia.
  assert (Hs : fst (shl_align (Pos.shiftl p (Z.to_N (24 - dig p))) (dig p - 24) (-23))
               = Pos.iter xO p 23).
  { unfold shl_align. zfold. destruct (-23 - (dig p - 24)) as [|k|k] eqn:E; try lia.
    - replace (24 - dig p) with 23 by lia. reflexivity.
    - cbn [fst]. rewrite <- !shiftl_iter, shiftl_shiftl. f_equal. lia. }
  rewrite Hs. change (fst (shl_align 8388608 (-23) (-23))) with (Pos.iter xO 1%positive 23).
  cbn [cond_Zopp]. change (Z.pos (Pos.iter xO p 23) + Z.pos (Pos.iter xO 1%positive 23))
    with (Z.pos (Pos.iter xO p 23 + Pos.iter xO 1%positive 23)).
  rewrite shift_add. cbn [binary_normalize].
  destruct (dig_succ p Hd) as [Hq|Hq].
  - assert (2 <= dig (p + 1)).
    { unfold dig. destruct p; simpl; lia. }
    rewrite round_shifted by lia. symmetry. apply round_canon. lia.
  - rewrite Hq. reflexivity.
Qed.

Lemma f32_count_S k : fcount (S k) = f32_add (fcount k) f32_one.
Proof. reflexivity. Qed.

Lemma f32_count_exact k : Z.of_nat k <= 16777216 -> fcount k = f32_of_Z (Z.of_nat k).
Proof.
  induction k as [|k IH]; intros Hk; [reflexivity|].
  rewrite f32_count_S, IH by lia.
  destruct k as [|k]; [reflexivity|].
  replace (Z.of_nat (S (S k))) with (Zpos (Pos.of_succ_nat k + 1)) by lia.
  replace (Z.of_nat (S k)) with (Zpos (Pos.of_succ_nat k)) in * by lia.
  unfold f32_of_Z. cbn [binary_normalize].
  assert (Hd : dig (Pos.of_succ_nat k) <= 24).
  { apply dig_le; [lia|]. change (2 ^ 24) with 16777216. lia. }
  rewrite round_canon by assumption. apply add_one_canon. assumption.
Qed.

Lemma f32_count_sat k : 16777216 <= Z.of_nat k -> fcount k = f32_of_Z 16777216.
Proof.
  induction k as [|k IH]; intros Hk; [lia|].
  destruct (Z.eq_dec (Z.of_nat (S k)) 16777216) as [E|E].
  - rewrite f32_count_exact by lia. now rewrite E.
  - rewrite f32_count_S, IH by lia. reflexivity.
Qed.

Lemma f32_count_closed k : fcount k = f32_of_Z (Z.min (Z.of_nat k) 16777216).
Proof.
  destruct (Z.le_gt_cases (Z.of_nat k) 16777216).
  - rewrite Z.min_l by lia. now apply f32_count_exact.
  - rewrite Z.min_r by lia. apply f32_count_sat. lia.
Qed.

Lemma shift_value p k : Zpos (Pos.iter xO p k) = Zpos p * 2 ^ Zpos k.
Proof.
  induction k using Pos.peano_ind.
  - simpl. lia.
  - rewrite Pos.iter_succ, Pos2Z.inj_succ, Z.pow_succ_r, Pos2Z.inj_xO, IHk by lia. lia.
Qed.

Lemma f32_to_Z_canon p : dig p <= 24 -> f32_to_Z (f32_canon p) = Some (Zpos p).
Proof.
  intros Hd. assert (H1 : 1 <= dig p) by (unfold dig; lia).
  unfold f32_canon, f32_to_Z. destruct (Z.leb_spec 0 (dig p - 24)) as [He|He].
  - replace (24 - dig p) with 0 by lia. change (Pos.shiftl p (Z.to_N 0)) with p.
    replace (dig p - 24) with 0 by lia. simpl. f_equal. lia.
  - destruct (24 - dig p) as [|k|k] eqn:E; try lia.
    change (Pos.shiftl p (Z.to_N (Z.pos k))) with (Pos.iter xO p k).
    rewrite shift_value. replace (- (dig p - 24)) with (Zpos k) by lia.
    rewrite Z.mod_mul, Z.div_mul by lia. reflexivity.
Qed.

Lemma f32_of_Z_cases z : 1 <= z <= 16777216 ->
  (exists p, z = Zpos p /\ dig p <= 24 /\ f32_of_Z z = f32_canon p) \/
  (z = 16777216 /\ f32_of_Z z = S754_finite false 8388608 1).
Proof.
  intros Hz. destruct (Z.eq_dec z 16777216) as [->|Hne]; [right; split; reflexivity|left].
  destruct z as [|p|p]; try lia. exists p.
  assert (Hd : dig p <= 24) by (apply dig_le; [lia|]; change (2 ^ 24) with 16777216; lia).
  split_and!; [done..|]. unfold f32_of_Z. cbn [binary_normalize]. by apply round_canon.
Qed.

Lemma f32_canon_ge1 p : dig p <= 24 -> SFleb f32_one (f32_canon p) = true.
Proof.
  intros Hd. assert (H1 : 1 <= dig p) by (unfold dig; lia).
  unfold f32_canon, f32_one, SFleb, SFcompare.
  destruct (Z.compare_spec (-23) (dig p - 24)) as [E|E|E]; try done; [|lia].
  assert (Hp : p = 1%positive).
  { pose proof (dig_bounds p) as [_ Hhi]. replace (dig p) with 1 in Hhi by lia.
    change (2 ^ 1) with 2 in Hhi. lia. }
  subst p. reflexivity.
Qed.

Lemma f32_of_Z_ge1 z : 1 <= z <= 16777216 -> SFleb f32_one (f32_of_Z z) = true.
Proof.
  intros Hz. destruct (f32_of_Z_cases z Hz) as [(p & _ & Hd & ->)|[_ ->]]; [|done].
  by apply f32_canon_ge1.
Qed.

Lemma f32_of_Z_nonneg z : 0 <= z <= 16777216 -> SFleb f32_zero (f32_of_Z z) = true.
Proof.
  intros Hz. destruct (Z.eq_dec z 0) as [->|Hne]; [done|].
  destruct (f32_of_Z_cases z) as [(p & _ & Hd & ->)|[_ ->]]; [lia|done..].
Qed.

Lemma f32_of_Z_nonzero z : 1 <= z <= 16777216 -> SFeqb (f32_of_Z z) f32_zero = false.
Proof.
  intros Hz. by destruct (f32_of_Z_cases z Hz) as [(p & _ & Hd & ->)|[_ ->]].
Qed.

Lemma f32_to_Z_of_Z z : 0 <= z <= 16777216 -> f32_to_Z (f32_of_Z z) = Some z.
Proof.
  intros Hz. destruct (Z.eq_dec z 0) as [->|Hne]; [done|].
  destruct (f32_of_Z_cases z) as [(p & -> & Hd & ->)|[-> ->]]; [lia| |done].
  by apply f32_to_Z_canon.
Qed.

(** A binary32 counter is zero exactly before its first increment. *)
Lemma f32_count_eqb0 k : SFeqb (fcount (F := spec_float) k) f32_zero = bool_decide (k = 0%nat).
Proof.
  destruct k as [|k]; [done|]. rewrite bool_decide_eq_false_2 by done.
  rewrite f32_count_closed. apply f32_of_Z_nonzero. lia.
Qed.

Lemma f32_count_nonneg k : SFleb f32_zero (fcount (F := spec_float) k) = true.
Proof. rewrite f32_count_closed. apply f32_of_Z_nonneg. lia. Qed.

Lemma f32_count_ge1 k : SFleb f32_one (fcount (F := spec_float) k) = bool_decide (k ≠ 0%nat).
Proof.
  destruct k as [|k]; [done|]. rewrite bool_decide_eq_true_2 by done.
  rewrite f32_count_closed. apply f32_of_Z_ge1. lia.
Qed.

(** Up to 2^24 increments the binary32 counter holds the exact count. *)
Lemma f32_count_value k :
  Z.of_nat k <= 16777216 -> f32_to_Z (fcount (F := spec_float) k) = Some (Z.of_nat k).
Proof. intros Hk. rewrite f32_count_exact by done. apply f32_to_Z_of_Z. lia. Qed.

End Binary32.

(** ** Sorted distinct ids *)

Lemma insert_unique_elem x l y : y ∈ insert_unique x l ↔ y = x ∨ y ∈ l.
Proof.
  induction l as [|z l IH]; simpl.
  { rewrite list_elem_of_singleton, elem_of_nil. naive_solver. }
  destruct (Nat.ltb_spec x z); [by rewrite elem_of_cons|].
  destruct (Nat.eqb_spec x z) as [->|]; rewrite !elem_of_cons; [naive_solver|].
  rewrite IH. naive_solver.
Qed.

Lemma insert_unique_sorted x l :
  StronglySorted lt l → StronglySorted lt (insert_unique x l).
Proof.
  induction 1 as [|z l Hl IH Hz]; simpl; [repeat constructor|].
  destruct (Nat.ltb_spec x z).
  - constructor; [by constructor|]. constructor; [done|].
    eapply Forall_impl; [done|]. simpl. lia.
  - destruct (Nat.eqb_spec x z); [by constructor|].
    constructor; [done|]. apply Forall_forall. intros y Hy.
    apply insert_unique_elem in Hy as [->|Hy]; [lia|].
    by eapply Forall_forall in Hz.
Qed.

Lemma elem_of_unique x l : x ∈ unique l ↔ x ∈ l.
Proof.
  unfold unique. induction l as [|y l IH]; simpl; [done|].
  by rewrite insert_unique_elem, IH, elem_of_cons.
Qed.

Lemma unique_sorted l : StronglySorted lt (unique l).
Proof.
  unfold unique. induction l as [|y l IH]; simpl; [constructor|].
  by apply insert_unique_sorted.
Qed.

Lemma sorted_lt_NoDup (l : list nat) : StronglySorted lt l → NoDup l.
Proof.
  induction 1 as [|x l Hl IH Hx]; constructor; [|done].
  intros Hin. eapply Forall_forall in Hx; [|done]. lia.
Qed.

Lemma sorted_lt_ext (l1 l2 : list nat) :
  StronglySorted lt l1 → StronglySorted lt l2 → (∀ x, x ∈ l1 ↔ x ∈ l2) → l1 = l2.
Proof.
  intros H1 H2 Hx. apply (StronglySorted_unique_strong lt); [|done..|].
  - intros; lia.
  - apply NoDup_Permutation; auto using sorted_lt_NoDup.
Qed.

Lemma elem_of_nonzero (m : list (list Z)) i j :
  (i, j) ∈ nonzero m ↔ ∃ row x, m !! i = Some row ∧ row !! j = Some x ∧ x ≠ 0%Z.
Proof.
  unfold nonzero. rewrite list_elem_of_join. split.
  - intros (l & Hij & Hl). apply elem_of_lookup_imap in Hl as (i' & row & -> & Hrow).
    apply list_elem_of_fmap in Hij as ([j' x] & [= -> ->] & Hjx).
    apply list_elem_of_filter in Hjx as [Hx Hjx]. simpl in *.
    apply elem_of_lookup_imap in Hjx as (j'' & x' & [= -> ->] & Hx').
    eauto.
  - intros (row & x & Hrow & Hx & Hne). eexists. split.
    2:{ apply elem_of_lookup_imap. eauto. }
    apply list_elem_of_fmap. exists (j, x). split; [done|].
    apply list_elem_of_filter. split; [done|].
    apply elem_of_lookup_imap. eauto.
Qed.

Lemma elem_of_visible_ids (vis : list (list Z)) p :
  p ∈ visible_ids vis ↔ ∃ row k x, vis !! p = Some row ∧ row !! k = Some x ∧ x ≠ 0%Z.
Proof.
  unfold visible_ids. rewrite elem_of_unique, list_elem_of_fmap. split.
  - intros ([i j] & -> & Hij). apply elem_of_nonzero in Hij. naive_solver.
  - intros (row & k & x & ?). exists (p, k). split; [done|].
    apply elem_of_nonzero. naive_solver.
Qed.

(** ** The loop, point by point *)

Section Loop.
Context {F : Type} `{Scalar F}.
Implicit Types (st : Acc F) (p : nat).

Lemma mask_of_length (m : list (Z * Z * Z)) : length (mask_of m) = length m.
Proof. unfold mask_of. by rewrite length_fmap. Qed.

Lemma bump_length (cs : list F) mask :
  length mask = length cs → length (bump cs mask) = length cs.
Proof. intros Hl. unfold bump. rewrite length_zip_with. lia. Qed.

Lemma bump_lookup (cs : list F) mask p c m :
  cs !! p = Some c → mask !! p = Some m →
  bump cs mask !! p = Some (if bool_decide (m ≠ 0%Z) then fadd c fone else c).
Proof. intros Hc Hm. unfold bump. rewrite lookup_zip_with, Hc. simpl. by rewrite Hm. Qed.

Lemma set_column_length i mask (vis : list (list Z)) :
  length mask = length vis → length (set_column i mask vis) = length vis.
Proof. intros Hl. unfold set_column. rewrite length_zip_with. lia. Qed.

Lemma set_column_lookup i mask (vis : list (list Z)) p row m :
  vis !! p = Some row → mask !! p = Some m →
  set_column i mask vis !! p = Some (<[i := m]> row).
Proof. intros Hr Hm. unfold set_column. rewrite lookup_zip_with, Hr. simpl. by rewrite Hm. Qed.

Lemma accumulate_spec (sums feats : list (list F)) mask r :
  accumulate sums feats mask = Some r →
  length feats = length sums → length mask = length sums →
  length r = length sums ∧
  ∀ p s v m, sums !! p = Some s → feats !! p = Some v → mask !! p = Some m →
    ∃ s', r !! p = Some s' ∧
          (if bool_decide (m ≠ 0%Z) then row_add s v else Some s) = Some s'.
Proof.
  revert feats mask r.
  induction sums as [|s sums IH]; intros [|v feats] [|m mask] r Hacc Hf Hm;
    simplify_eq/=; try done.
  destruct (if bool_decide (m ≠ 0%Z) then row_add s v else Some s) as [s'|] eqn:Hs;
    simplify_eq/=.
  destruct (accumulate sums feats mask) as [rest|] eqn:Hrest; simplify_eq/=.
  destruct (IH _ _ _ Hrest) as [Hlen Hlk]; [lia..|].
  split; [by rewrite Hlen|].
  intros [|p] s0 v0 m0 ???; simplify_eq/=; eauto.
Qed.

Lemma accumulate_some (sums feats : list (list F)) mask :
  length feats = length sums → length mask = length sums →
  (∀ p s v m, sums !! p = Some s → feats !! p = Some v → mask !! p = Some m →
     m ≠ 0%Z → is_Some (row_add s v)) →
  is_Some (accumulate sums feats mask).
Proof.
  revert feats mask.
  induction sums as [|s sums IH]; intros [|v feats] [|m mask] Hf Hm Hok;
    simplify_eq/=; try done.
  destruct (IH feats mask) as [rest Hrest]; [lia..| |].
  { intros p ???? ???. by eapply (Hok (S p)). }
  rewrite Hrest. case_bool_decide as Hm0; simpl; [|eauto].
  destruct (Hok 0%nat s v m) as [s' ->]; eauto.
Qed.

Lemma row_add_length (s v s' : list F) : row_add s v = Some s' → length s' = length s.
Proof.
  unfold row_add. case_match.
  - intros [= <-]. rewrite length_zip_with. apply Nat.eqb_eq in H0. lia.
  - destruct v as [|x [|??]]; intros [= <-]. by rewrite length_fmap.
Qed.

Lemma row_add_is_Some (s v : list F) :
  is_Some (row_add s v) ↔ length v = length s ∨ length v = 1%nat.
Proof.
  unfold row_add. destruct (Nat.eqb_spec (length v) (length s)) as [E|E].
  - split; eauto.
  - destruct v as [|x [|??]]; simpl in *; split; intros Hx;
      try (by destruct Hx as [?|?]; simplify_eq); eauto; by destruct Hx.
Qed.

Lemma gather_lookup (t : Tensor3 F) m g p rcm :
  gather t m = Some g → m !! p = Some rcm →
  g !! p = gather_row t rcm.1.1 rcm.1.2 ∧ is_Some (g !! p).
Proof.
  unfold gather. intros Hg Hm. apply mapM_Some in Hg.
  destruct (Forall2_lookup_l _ _ _ _ _ Hg Hm) as (y & Hy & Hrow).
  rewrite Hy, Hrow. eauto.
Qed.

Lemma gather_length (t : Tensor3 F) m g : gather t m = Some g → length g = length m.
Proof. unfold gather. intros Hg. symmetry. by eapply length_mapM. Qed.

Lemma gather_row_length (t : Tensor3 F) r c row :
  gather_row t r c = Some row → length row = t_dim t.
Proof.
  unfold gather_row. intros Hg. simplify_option_eq.
  by rewrite length_fmap, length_seq.
Qed.


Lemma mask_at_lookup (v : View F) p m : mask_of (mapping v) !! p = Some m → mask_at v p = m.
Proof. unfold mask_at. by intros ->. Qed.

Lemma mask_at_ge (v : View F) p : length (mapping v) ≤ p → mask_at v p = 0%Z.
Proof.
  intros Hp. unfold mask_at. rewrite lookup_ge_None_2; [done|].
  by rewrite mask_of_length.
Qed.

Lemma fuse_view_spec skip src N st i (v : View F) st' :
  fuse_view_gen skip src N st i v = Some st' →
  length (counter st) = N → length (sum_features st) = N → length (vis_id st) = N →
  (length (counter st') = N ∧ length (sum_features st') = N ∧ length (vis_id st') = N) ∧
  ∀ p c s row,
    counter st !! p = Some c → sum_features st !! p = Some s → vis_id st !! p = Some row →
    counter st' !! p = Some (if sees skip p v then fadd c fone else c) ∧
    sum_features st' !! p = Some (if sees skip p v then radd s (feat_at v p) else s) ∧
    vis_id st' !! p = Some (if processed skip v then <[i := mask_at v p]> row else row).
Proof.
  unfold fuse_view_gen, sees, processed. intros Hv Hc Hs Hvis.
  destruct (Nat.eqb_spec (length (mapping v)) N) as [Hn|]; [simpl in Hv|done].
  destruct (skip && skipped v) eqn:Hskip; simpl in *.
  { simplify_eq. split; [done|]. by intros p c s row -> -> ->. }
  destruct (match src with OnTheFly => _ | Cached => _ | Undefined => _ end)
    as [calls|] eqn:Hcalls; [simpl in Hv|done].
  destruct (gather (feat_2d v) (mapping v)) as [g|] eqn:Hg; [simpl in Hv|done].
  destruct (accumulate (sum_features st) g (mask_of (mapping v))) as [sums|] eqn:Hacc;
    simplify_eq/=.
  pose proof (gather_length _ _ _ Hg) as Hgl.
  pose proof (mask_of_length (mapping v)) as Hml.
  destruct (accumulate_spec _ _ _ _ Hacc) as [Hlen Hlk]; [lia..|].
  split.
  { rewrite bump_length, set_column_length by lia. lia. }
  intros p c s row Hpc Hps Hpr.
  assert (Hp : p < length (mapping v)) by (apply lookup_lt_Some in Hpc; lia).
  destruct (lookup_lt_is_Some_2 (mapping v) p Hp) as [rcm Hrcm].
  assert (Hm : mask_of (mapping v) !! p = Some rcm.2)
    by (unfold mask_of; by rewrite list_lookup_fmap, Hrcm).
  rewrite (mask_at_lookup _ _ _ Hm).
  destruct (gather_lookup _ _ _ _ _ Hg Hrcm) as [Hgr [fv Hfv]].
  destruct (Hlk p s fv rcm.2 Hps Hfv Hm) as (s' & Hs' & Hrow).
  split_and!.
  - by apply bump_lookup.
  - rewrite Hs'. f_equal. case_bool_decide; [|congruence].
    unfold radd, feat_at. rewrite Hrcm. simpl. rewrite <- Hgr, Hfv. simpl.
    by rewrite Hrow.
  - by apply set_column_lookup.
Qed.

Lemma iter_bump (c : F) k :
  Nat.iter k (λ c, fadd c fone) (fadd c fone) = fadd (Nat.iter k (λ c, fadd c fone) c) fone.
Proof. induction k as [|k IH]; simpl; congruence. Qed.

Lemma fuse_from_spec skip src N (vs : list (View F)) : ∀ i st st',
  fuse_from_gen skip src N i vs st = Some st' →
  length (counter st) = N → length (sum_features st) = N → length (vis_id st) = N →
  (length (counter st') = N ∧ length (sum_features st') = N ∧ length (vis_id st') = N) ∧
  ∀ p c s row,
    counter st !! p = Some c → sum_features st !! p = Some s → vis_id st !! p = Some row →
    counter st' !! p
      = Some (Nat.iter (length (filter (λ v, sees skip p v = true) vs)) (λ c, fadd c fone) c) ∧
    sum_features st' !! p = Some (foldl radd s (addends skip p vs)) ∧
    vis_id st' !! p = Some (set_cols skip p i vs row).
Proof.
  induction vs as [|v vs IH]; intros i st st' Hf Hc Hs Hvis; simpl in Hf.
  { simplify_eq. split; [done|]. by intros p c s row -> -> ->. }
  destruct (fuse_view_gen skip src N st i v) as [st1|] eqn:Hv; [simpl in Hf|done].
  destruct (fuse_view_spec _ _ _ _ _ _ _ Hv Hc Hs Hvis) as [(Hc1 & Hs1 & Hvis1) Hstep].
  destruct (IH _ _ _ Hf Hc1 Hs1 Hvis1) as [Hlen Hrest].
  split; [done|]. intros p c s row Hpc Hps Hpr.
  destruct (Hstep p c s row Hpc Hps Hpr) as (Hc' & Hs' & Hr').
  destruct (Hrest p _ _ _ Hc' Hs' Hr') as (-> & -> & ->).
  unfold addends. rewrite filter_cons. simpl.
  destruct (sees skip p v) eqn:Hsees.
  - rewrite decide_True by done. simpl. by rewrite iter_bump.
  - rewrite decide_False by done. done.
Qed.


Lemma set_cols_lookup skip p (vs : list (View F)) : ∀ i row k,
  set_cols skip p i vs row !! k =
  match (if decide (i ≤ k) then vs !! (k - i) else None) with
  | Some v => if processed skip v then (λ _, mask_at v p) <$> row !! k else row !! k
  | None => row !! k
  end.
Proof.
  induction vs as [|v vs IH]; intros i row k; simpl.
  { by case_decide. }
  rewrite IH. destruct (decide (i = k)) as [->|Hne].
  - rewrite decide_False, decide_True by lia. rewrite Nat.sub_diag. simpl.
    destruct (processed skip v); [|done].
    rewrite list_lookup_insert. case_decide as Hk.
    + destruct Hk as [_ Hk]. by destruct (lookup_lt_is_Some_2 row k Hk) as [x ->].
    + rewrite lookup_ge_None_2; [done|]. lia.
  - assert (Hrow : (if processed skip v then <[i:=mask_at v p]> row else row) !! k = row !! k).
    { destruct (processed skip v); [|done]. by rewrite list_lookup_insert_ne. }
    rewrite Hrow. destruct (decide (i ≤ k)) as [Hle|Hgt].
    + rewrite decide_True by lia. replace (k - i) with (S (k - S i)) by lia. done.
    + by rewrite decide_False by lia.
Qed.


(** The ledger row of a point has a non-zero entry exactly when a
    processed frame flags the point. *)
Lemma set_cols_nonzero skip p (vs : list (View F)) :
  (∃ k x, set_cols skip p 0 vs (replicate (length vs) 0%Z) !! k = Some x ∧ x ≠ 0%Z)
  ↔ ∃ v, v ∈ vs ∧ processed skip v = true ∧ mask_at v p ≠ 0%Z.
Proof.
  split.
  - intros (k & x & Hk & Hx). rewrite set_cols_lookup in Hk.
    rewrite decide_True, Nat.sub_0_r in Hk by lia.
    destruct (vs !! k) as [v|] eqn:Hv.
    + destruct (processed skip v) eqn:Hp.
      * exists v. split_and!; [by eapply list_elem_of_lookup_2|done|].
        destruct (replicate _ _ !! k); simplify_eq/=. done.
      * apply lookup_replicate in Hk as [-> _]. done.
    + apply lookup_replicate in Hk as [-> _]. done.
  - intros (v & Hv & Hp & Hm). apply list_elem_of_lookup in Hv as [k Hk].
    exists k, (mask_at v p). split; [|done].
    rewrite set_cols_lookup, decide_True, Nat.sub_0_r, Hk, Hp by lia.
    rewrite lookup_replicate_2; [done|]. by eapply lookup_lt_Some.
Qed.


(** The loop of a whole scene, from zero accumulators. *)
Lemma fuse_views_gen_spec skip src N D V (vs : list (View F)) pre st :
  fuse_from_gen skip src N 0 vs (init_acc N D V pre) = Some st →
  (length (counter st) = N ∧ length (sum_features st) = N ∧ length (vis_id st) = N) ∧
  ∀ p, p < N →
    counter st !! p = Some (fcount (length (filter (λ v, sees skip p v = true) vs))) ∧
    sum_features st !! p = Some (foldl radd (replicate D fzero) (addends skip p vs)) ∧
    vis_id st !! p = Some (set_cols skip p 0 vs (replicate V 0%Z)).
Proof.
  intros Hf. apply fuse_from_spec in Hf as [Hlen Hlk];
    [|simpl; by rewrite length_replicate..].
  split; [done|]. intros p Hp.
  apply Hlk; simpl; by apply lookup_replicate_2.
Qed.

Lemma mask_sum_zero (m : list Z) :
  Forall (λ x, x = 0%Z ∨ x = 1%Z) m → foldr Z.add 0%Z m = 0%Z → Forall (λ x, x = 0%Z) m.
Proof.
  intros Hb. assert (Hge : (0 ≤ foldr Z.add 0 m)%Z ∧ (foldr Z.add 0 m = 0 → Forall (λ x, x = 0) m)%Z).
  { induction Hb as [|x m Hx Hm [IH1 IH2]]; simpl; [done|].
    split; [lia|]. intros Hs. constructor; [lia|]. apply IH2. lia. }
  apply Hge.
Qed.

Lemma binary_skipped (v : View F) p :
  binary_mask v → skipped v = true → mask_at v p = 0%Z.
Proof.
  unfold binary_mask, skipped, mask_sum, mask_at. intros Hb Hs.
  apply Z.eqb_eq in Hs. pose proof (mask_sum_zero _ Hb Hs) as Hz.
  destruct (mask_of (mapping v) !! p) as [m|] eqn:Hm; [|done].
  by eapply Forall_lookup_1 in Hz.
Qed.

(** With 0/1 flags, a frame adds to point [p] exactly when it flags it. *)
Lemma binary_sees skip (v : View F) p :
  binary_mask v → sees skip p v = bool_decide (mask_at v p ≠ 0%Z).
Proof.
  intros Hb. unfold sees, processed. destruct (skip && skipped v) eqn:Hs; [|done].
  apply andb_true_iff in Hs as [_ Hs]. simpl.
  by rewrite (binary_skipped v p Hb Hs), bool_decide_eq_false_2 by auto.
Qed.

Lemma binary_filter_sees skip p (vs : list (View F)) :
  Forall binary_mask vs → filter (λ v, sees skip p v = true) vs = seen_in p vs.
Proof.
  unfold seen_in. induction 1 as [|v vs Hv Hvs IH]; [done|].
  rewrite !filter_cons, IH, (binary_sees skip v p Hv).
  destruct (decide (mask_at v p ≠ 0%Z)) as [Hm|Hm].
  - by rewrite bool_decide_eq_true_2, decide_True by done.
  - by rewrite bool_decide_eq_false_2, decide_False by done.
Qed.


(** ** When the loop raises *)

Lemma row_add_dims (s fv : list F) D d :
  length s = D → length fv = d → (d = D ∨ d = 1%nat) → is_Some (row_add s fv).
Proof. intros <- <- Hd. apply row_add_is_Some. lia. Qed.

Lemma mask_at_nonzero_lt (v : View F) p : mask_at v p ≠ 0%Z → p < length (mapping v).
Proof.
  intros Hm. destruct (decide (p < length (mapping v))); [done|].
  rewrite mask_at_ge in Hm by lia. done.
Qed.

Lemma fuse_view_ok skip src N D st i (v : View F) :
  acc_shape N D st → view_ok skip src N D v →
  ∃ st', fuse_view_gen skip src N st i v = Some st' ∧ acc_shape N D st'.
Proof.
  intros (Hc & Hs & Hvis & Hrows) [Hn Hok]. unfold fuse_view_gen, processed in *.
  rewrite Hn, Nat.eqb_refl. simpl.
  destruct (skip && skipped v) eqn:Hskip; simpl in *.
  { eexists. split; [done|]. by repeat split. }
  destruct Hok as (Hsrc & [g Hg] & Hdim); [done|].
  pose proof (gather_length _ _ _ Hg) as Hgl.
  pose proof (mask_of_length (mapping v)) as Hml.
  assert (Hacc : is_Some (accumulate (sum_features st) g (mask_of (mapping v)))).
  { apply accumulate_some; [lia..|]. intros p s fv m Hps Hfv Hm Hne.
    assert (Hp : p < length (mapping v)) by (apply lookup_lt_Some in Hm; lia).
    destruct (lookup_lt_is_Some_2 (mapping v) p Hp) as [rcm Hrcm].
    destruct (gather_lookup _ _ _ _ _ Hg Hrcm) as [Hgr _].
    rewrite Hfv in Hgr. symmetry in Hgr. apply gather_row_length in Hgr.
    eapply Forall_lookup_1 in Hrows; [|done].
    eapply row_add_dims; [done..|].
    destruct Hdim as [?|[?|Hz]]; [auto..|].
    specialize (Hz p). rewrite (mask_at_lookup _ _ _ Hm) in Hz. done. }
  destruct Hacc as [sums Hacc].
  destruct (accumulate_spec _ _ _ _ Hacc) as [Hlen Hlk]; [lia..|].
  rewrite Hg. simpl. rewrite Hacc. simpl.
  destruct src; [| |done]; simpl; eexists; (split; [done|]);
    (split_and!; simpl;
     [rewrite bump_length; lia | lia | rewrite set_column_length; lia |]).
  all: apply Forall_lookup; intros p s' Hs';
    assert (is_Some (sum_features st !! p)) as [s Hps]
      by (apply lookup_lt_is_Some; apply lookup_lt_Some in Hs'; lia);
    assert (is_Some (g !! p)) as [fv Hfv]
      by (apply lookup_lt_is_Some; apply lookup_lt_Some in Hs'; lia);
    assert (is_Some (mask_of (mapping v) !! p)) as [m Hm]
      by (apply lookup_lt_is_Some; apply lookup_lt_Some in Hs'; lia);
    destruct (Hlk p s fv m Hps Hfv Hm) as (s'' & Hs'' & Hrow);
    simplify_eq; eapply Forall_lookup_1 in Hrows; [|done];
    case_bool_decide; simplify_eq; [|done];
    apply row_add_length in Hrow; lia.
Qed.

Lemma fuse_from_ok skip src N D (vs : list (View F)) : ∀ i st,
  acc_shape N D st → Forall (view_ok skip src N D) vs →
  ∃ st', fuse_from_gen skip src N i vs st = Some st' ∧ acc_shape N D st'.
Proof.
  induction vs as [|v vs IH]; intros i st Hst Hvs; simpl; [eauto|].
  apply Forall_cons in Hvs as [Hv Hvs].
  destruct (fuse_view_ok skip src N D st i v Hst Hv) as (st1 & -> & Hst1). simpl.
  by apply IH.
Qed.

Lemma fuse_view_ok_inv skip src N D st i (v : View F) st' :
  acc_shape N D st → fuse_view_gen skip src N st i v = Some st' → view_ok skip src N D v.
Proof.
  intros (Hc & Hs & Hvis & Hrows) Hv. unfold fuse_view_gen, view_ok, processed in *.
  destruct (Nat.eqb_spec (length (mapping v)) N) as [Hn|]; [simpl in Hv|done].
  split; [done|]. intros Hp. apply negb_true_iff in Hp. rewrite Hp in Hv. simpl in Hv.
  destruct (match src with OnTheFly => _ | Cached => _ | Undefined => _ end)
    as [calls|] eqn:Hcalls; [simpl in Hv|done].
  destruct (gather (feat_2d v) (mapping v)) as [g|] eqn:Hg; [simpl in Hv|done].
  destruct (accumulate (sum_features st) g (mask_of (mapping v))) as [sums|] eqn:Hacc;
    [|done].
  split_and!; [by destruct src|done|].
  pose proof (gather_length _ _ _ Hg) as Hgl.
  pose proof (mask_of_length (mapping v)) as Hml.
  destruct (accumulate_spec _ _ _ _ Hacc) as [Hlen Hlk]; [lia..|].
  destruct (decide (Forall (λ m, m = 0%Z) (mask_of (mapping v)))) as [Hz|Hnz].
  { right; right. intros p. unfold mask_at.
    destruct (mask_of (mapping v) !! p) as [m|] eqn:Hm; [|done].
    by eapply Forall_lookup_1 in Hz. }
  apply not_Forall_Exists in Hnz; [|apply _].
  apply Exists_exists in Hnz as (m & Hin & Hm). apply list_elem_of_lookup in Hin as [p Hpm].
  assert (Hlt : p < length (mapping v)) by (apply lookup_lt_Some in Hpm; lia).
  destruct (lookup_lt_is_Some_2 (mapping v) p Hlt) as [rcm Hrcm].
  destruct (gather_lookup _ _ _ _ _ Hg Hrcm) as [Hgr [fv Hfv]].
  assert (is_Some (sum_features st !! p)) as [s0 Hps] by (apply lookup_lt_is_Some; lia).
  destruct (Hlk p s0 fv m Hps Hfv Hpm) as (s' & _ & Hrow).
  rewrite bool_decide_eq_true_2 in Hrow by done.
  assert (Hsome : is_Some (row_add s0 fv)) by eauto.
  apply row_add_is_Some in Hsome.
  rewrite Hfv in Hgr. symmetry in Hgr. apply gather_row_length in Hgr.
  eapply Forall_lookup_1 in Hrows; [|done]. simpl in *. lia.
Qed.

Lemma fuse_from_ok_inv skip src N D (vs : list (View F)) : ∀ i st st',
  acc_shape N D st → fuse_from_gen skip src N i vs st = Some st' →
  Forall (view_ok skip src N D) vs.
Proof.
  induction vs as [|v vs IH]; intros i st st' Hst Hf; simpl in Hf; [constructor|].
  destruct (fuse_view_gen skip src N st i v) as [st1|] eqn:Hv; [simpl in Hf|done].
  pose proof (fuse_view_ok_inv _ _ _ _ _ _ _ _ Hst Hv) as Hok.
  destruct (fuse_view_ok skip src N D st i v Hst Hok) as (st1' & Hv' & Hst1).
  simplify_eq. constructor; [done|]. by eapply IH.
Qed.

Lemma init_acc_shape N D V pre : acc_shape N D (init_acc (F := F) N D V pre).
Proof.
  unfold acc_shape, init_acc. simpl. rewrite !length_replicate. split_and!; [done..|].
  apply Forall_replicate. by rewrite length_replicate.
Qed.

(** The loop ends without an exception exactly when every frame can
    be fused. *)
Lemma fuse_from_is_Some skip src N D (vs : list (View F)) i st :
  acc_shape N D st →
  is_Some (fuse_from_gen skip src N i vs st) ↔ Forall (view_ok skip src N D) vs.
Proof.
  intros Hst. split.
  - intros [st' Hf]. by eapply fuse_from_ok_inv.
  - intros Hvs. destruct (fuse_from_ok skip src N D vs i st Hst Hvs) as (st' & -> & _).
    eauto.
Qed.

(** ** The calls of the feature extractor *)

Lemma fuse_from_calls skip src N (vs : list (View F)) : ∀ i st st',
  fuse_from_gen skip src N i vs st = Some st' →
  extract_calls st' =
  extract_calls st ++ match src with OnTheFly => calls_of skip i vs | _ => [] end.
Proof.
  induction vs as [|v vs IH]; intros i st st' Hf; simpl in Hf.
  { simplify_eq. destruct src; by rewrite app_nil_r. }
  destruct (fuse_view_gen skip src N st i v) as [st1|] eqn:Hv; [simpl in Hf|done].
  rewrite (IH _ _ _ Hf). clear Hf IH. unfold fuse_view_gen in Hv.
  destruct (negb _); [done|]. simpl. unfold processed.
  destruct (skip && skipped v); simpl in *.
  { simplify_eq. by destruct src. }
  destruct src; simplify_option_eq; by rewrite <- ?app_assoc.
Qed.

Lemma elem_of_calls_of skip (vs : list (View F)) : ∀ i k,
  k ∈ calls_of skip i vs ↔ ∃ v, i ≤ k ∧ vs !! (k - i) = Some v ∧ processed skip v = true.
Proof.
  induction vs as [|v vs IH]; intros i k; simpl.
  { rewrite elem_of_nil. naive_solver. }
  rewrite elem_of_app, IH. split.
  - intros [Hk|(v' & Hle & Hv' & Hp)].
    + destruct (processed skip v) eqn:Hp; [|by apply elem_of_nil in Hk].
      apply list_elem_of_singleton in Hk as ->. exists v.
      by rewrite Nat.sub_diag.
    + exists v'. split_and!; [lia| |done].
      by replace (k - i) with (S (k - S i)) by lia.
  - intros (v' & Hle & Hv' & Hp). destruct (decide (k = i)) as [->|Hne].
    + left. rewrite Nat.sub_diag in Hv'. simplify_eq/=. rewrite Hp.
      by apply list_elem_of_singleton.
    + right. exists v'. split_and!; [lia| |done].
      by replace (k - i) with (S (k - S i)) in Hv' by lia.
Qed.

(** ** Finalisation *)

Lemma eps_floor_lookup (cs : list F) p :
  eps_floor cs !! p = (λ c, if feqb c fzero then feps else c) <$> cs !! p.
Proof. unfold eps_floor. by rewrite list_lookup_fmap. Qed.

Lemma divide_lookup (sums : list (list F)) cs p row c :
  sums !! p = Some row → cs !! p = Some c →
  divide sums cs !! p = Some ((λ s, fdiv s c) <$> row).
Proof. intros Hr Hc. unfold divide. rewrite lookup_zip_with, Hr. simpl. by rewrite Hc. Qed.

End Loop.

(** ** Paths *)

Lemma app_cons c a b : String c a +:+ b = String c (a +:+ b).
Proof. reflexivity. Qed.

Lemma app_nil_l' b : "" +:+ b = b.
Proof. reflexivity. Qed.

Lemma last_component_plain f : has_slash f = false → last_component f = f.
Proof.
  destruct f as [|c f]; [done|]. simpl.
  destruct (Ascii.eqb c slash); [done|]. by intros ->.
Qed.

Lemma has_slash_app a b : has_slash (a +:+ b) = has_slash a || has_slash b.
Proof.
  induction a as [|c a IH]; [done|]. rewrite app_cons. simpl.
  by destruct (Ascii.eqb c slash).
Qed.

Lemma ends_with_slash_has a : ends_with_slash a = true → has_slash a = true.
Proof.
  induction a as [|c a IH]; [done|]. simpl. destruct a as [|c' a].
  - by intros ->.
  - intros Ha. rewrite (IH Ha). by destruct (Ascii.eqb c slash).
Qed.

Lemma last_component_dir a f :
  ends_with_slash a = true → has_slash f = false → last_component (a +:+ f) = f.
Proof.
  intros Ha Hf. induction a as [|c a IH]; [done|].
  rewrite app_cons. simpl in *. destruct a as [|c' a].
  - rewrite app_nil_l'. by rewrite Hf, Ha.
  - rewrite has_slash_app, (ends_with_slash_has _ Ha). simpl. by apply IH.
Qed.

Lemma ends_with_slash_app a : ends_with_slash (a +:+ "/") = true.
Proof.
  induction a as [|c a IH]; [done|]. rewrite app_cons. simpl.
  destruct (a +:+ "/") eqn:E; [by destruct a|done].
Qed.

Lemma append_assoc a b c : (a +:+ b) +:+ c = a +:+ (b +:+ c).
Proof. induction a as [|x a IH]; [done|]. by rewrite !app_cons, IH. Qed.

Lemma last_component_join_step a f :
  String.prefix "/" f = false → has_slash f = false →
  last_component (join_step a f) = f.
Proof.
  intros Hp Hf. unfold join_step. rewrite Hp.
  destruct (ends_with_slash a) eqn:Ha; simpl.
  - by apply last_component_dir.
  - case_bool_decide as He.
    + subst a. by apply last_component_plain.
    + rewrite <- append_assoc. apply last_component_dir; [|done].
      apply ends_with_slash_app.
Qed.

Lemma scene_id_of_join a ps :
  scene_id_of (join a (ps ++ ["scene0479_00_vh_clean_2.pth"])) = "scene0479_00".
Proof.
  unfold scene_id_of, join. rewrite foldl_app. simpl.
  by rewrite last_component_join_step.
Qed.

Lemma join_step_plain a b :
  String.prefix "/" b = false → a ≠ "" → ends_with_slash a = false →
  join_step a b = a +:+ "/" +:+ b.
Proof.
  intros Hp Ha He. unfold join_step. rewrite Hp, He. simpl.
  by rewrite bool_decide_eq_false_2.
Qed.

Lemma ends_with_slash_app_r a b : b ≠ "" → ends_with_slash (a +:+ b) = ends_with_slash b.
Proof.
  intros Hb. induction a as [|c a IH]; [done|]. rewrite app_cons. simpl.
  destruct (a +:+ b) eqn:E; [|done]. destruct a, b; done.
Qed.

Lemma append_nonempty_r a b : b ≠ "" → a +:+ b ≠ "".
Proof. by destruct a, b. Qed.

Lemma data_root_plain data_dir :
  join data_dir ["scannet_3d"] ≠ "" ∧ ends_with_slash (join data_dir ["scannet_3d"]) = false.
Proof.
  unfold join. simpl. unfold join_step. simpl.
  destruct (ends_with_slash data_dir || bool_decide (data_dir = "")).
  - split; [by apply append_nonempty_r|]. by rewrite ends_with_slash_app_r.
  - split; [by apply append_nonempty_r|].
    rewrite <- append_assoc. by rewrite ends_with_slash_app_r.
Qed.

(** ** The shards already written *)

Lemma length_filter_all {A} (P : A → Prop) `{∀ x, Decision (P x)} (l : list A) :
  length (filter P l) = length l ↔ Forall P l.
Proof.
  induction l as [|x l IH]; simpl; [by split|].
  rewrite filter_cons. pose proof (length_filter P l) as Hle.
  destruct (decide (P x)); simpl.
  - rewrite Forall_cons. split; [intros ?; split; [done|apply IH; lia]|].
    intros [_ Hl]. f_equal. by apply IH.
  - split; [lia|]. intros Hf. by apply Forall_cons in Hf as [? _].
Qed.

Section Scenes.
Context {F : Type} `{Scalar F}.

Lemma n_finished_all (w : World F) out_dir scene_id k :
  n_finished w out_dir scene_id k = k ↔
  ∀ n, n < k → join out_dir [shard_name scene_id n] ∈ files w.
Proof.
  unfold n_finished, shard_exists. split.
  - intros Hlen n Hn.
    assert (Hall : Forall (λ n, bool_decide (join out_dir [shard_name scene_id n] ∈ files w)
                                = true) (seq 0 k)).
    { eapply (proj1 (length_filter_all _ _)). by rewrite length_seq. }
    rewrite Forall_forall in Hall.
    assert (Hb := Hall n ltac:(apply elem_of_seq; lia)).
    by apply bool_decide_eq_true in Hb.
  - intros Hall. etrans; [|apply length_seq].
    eapply (proj2 (length_filter_all _ _)), Forall_forall. intros n Hn.
    apply elem_of_seq in Hn. apply bool_decide_eq_true, Hall. lia.
Qed.

Lemma fuse_and_save_not_done (w : World F) scene_id out_dir n_points args :
  fuse_and_save w scene_id out_dir n_points args ≠ AlreadyDone.
Proof.
  unfold fuse_and_save. destruct (fuse_views _ _ _ _ _); [|done].
  by destruct (finalize _) as [? [? ?]].
Qed.

(** With a shard missing, the scene is fused and saved. *)
Lemma process_one_scene_run (w : World F) (data_path out_dir : string) (args : Args)
    (n_points : nat) :
  point_clouds w !! data_path = Some n_points →
  (∃ n, n < num_rand_file_per_scene args ∧
        join out_dir [shard_name (scene_id_of data_path) n] ∉ files w) →
  process_one_scene w data_path out_dir args
  = fuse_and_save w (scene_id_of data_path) out_dir n_points args.
Proof.
  intros Hload (n & Hn & Hmiss). unfold process_one_scene. rewrite Hload.
  destruct (Nat.eqb_spec (n_finished w out_dir (scene_id_of data_path)
              (num_rand_file_per_scene args)) (num_rand_file_per_scene args)) as [E|E];
    [|done].
  exfalso. by apply Hmiss, (proj1 (n_finished_all _ _ _ _) E).
Qed.

(** C8. [process_one_scene] returns at line 64, before any frame is
    read, fused or saved, exactly when every one of the
    [num_rand_file_per_scene] shard files [scene_id_n.pt] exists under
    [out_dir]; when one is missing the scene is fused from zero
    accumulators over all its frames, whatever shards exist. The point
    cloud is loaded first (line 52), so the statement is for a
    [data_path] that loads. *)
Theorem already_exported_skip (w : World F) (data_path out_dir : string) (args : Args)
    (n_points : nat) :
  point_clouds w !! data_path = Some n_points →
  (process_one_scene w data_path out_dir args = AlreadyDone ↔
     ∀ n, n < num_rand_file_per_scene args →
          join out_dir [shard_name (scene_id_of data_path) n] ∈ files w) ∧
  ((∃ n, n < num_rand_file_per_scene args ∧
         join out_dir [shard_name (scene_id_of data_path) n] ∉ files w) →
     process_one_scene w data_path out_dir args
     = fuse_and_save (mkWorld ∅ (point_clouds w) (scene_views w))
         (scene_id_of data_path) out_dir n_points args ∧
     process_one_scene w data_path out_dir args ≠ AlreadyDone).
Proof.
  intros Hload. split.
  - unfold process_one_scene. rewrite Hload, <- n_finished_all.
    destruct (Nat.eqb_spec (n_finished w out_dir (scene_id_of data_path)
                (num_rand_file_per_scene args)) (num_rand_file_per_scene args)) as [E|E];
      [done|].
    split; [|done]. intros Hdone. by apply fuse_and_save_not_done in Hdone.
  - intros Hmiss. rewrite (process_one_scene_run w data_path out_dir args n_points) by done.
    split; [done|apply fuse_and_save_not_done].
Qed.

(** C10. [main] never lists the split directory: [data_paths] is the
    one hard-coded path [scannet_3d/<split>/scene0479_00_vh_clean_2.pth]
    under [data_dir], whose scene id is [scene0479_00]; so whatever files
    exist and whatever id range is given, [main] calls
    [process_one_scene] at most once, and only for that path. *)
Theorem main_single_scene (py_int : string → option Z) (w : World F)
    (data_dir split output_dir : string) (has_model : bool)
    (process_id_range : option (list string)) :
  let path := join (join data_dir ["scannet_3d"]) [split; "scene0479_00_vh_clean_2.pth"] in
  let calls := main py_int w data_dir split output_dir has_model process_id_range in
  data_paths data_dir split = [path] ∧
  scene_id_of path = "scene0479_00" ∧
  (calls = [] ∨
   calls = [(path, process_one_scene w path output_dir (configure split has_model data_dir))]) ∧
  length calls ≤ 1 ∧
  (String.prefix "/" split = false → split ≠ "" → ends_with_slash split = false →
   path = join data_dir ["scannet_3d"] +:+ "/" +:+ split +:+ "/scene0479_00_vh_clean_2.pth").
Proof.
  intros path calls.
  assert (Hcalls : calls = [] ∨ calls =
    [(path, process_one_scene w path output_dir (configure split has_model data_dir))]).
  { unfold calls, main. destruct (parse_id_range py_int process_id_range) as [r|]; [|by left].
    unfold data_paths. fold path. simpl.
    destruct (match r with Some (lo, hi) => _ | None => false end); [by left|right].
    by destruct (process_one_scene w path output_dir _). }
  split_and!; [done| |done| |].
  - apply (scene_id_of_join _ [split]).
  - by destruct Hcalls as [->| ->]; simpl; lia.
  - intros Hp Hne He. unfold path, join. simpl.
    destruct (data_root_plain data_dir) as [Hr1 Hr2]. unfold join in Hr1, Hr2. simpl in *.
    rewrite (join_step_plain _ split) by done.
    rewrite join_step_plain; [by rewrite !append_assoc|done|..].
    + by apply append_nonempty_r.
    + rewrite ends_with_slash_app_r by done. by rewrite ends_with_slash_app_r.
Qed.

End Scenes.

(** [already_exported_skip] with an empty output directory: the scene is processed. *)
Lemma already_exported_skip_witness :
  process_one_scene empty_scene "data/scannet_3d/val/scene0479_00_vh_clean_2.pth" "out" val_args
  ≠ AlreadyDone.
Proof.
  destruct (already_exported_skip empty_scene
              "data/scannet_3d/val/scene0479_00_vh_clean_2.pth" "out" val_args 3 eq_refl)
    as [_ Hrun].
  apply Hrun. exists 0. split; [vm_compute; lia|]. apply not_elem_of_empty.
Defined.

(** ** Finalisation of a binary32 accumulator *)

Lemma eps_floor_idem (cs : list spec_float) : eps_floor (eps_floor cs) = eps_floor cs.
Proof.
  unfold eps_floor. rewrite <- list_fmap_compose. apply list_fmap_ext.
  intros _ c _. simpl. by destruct (SFeqb c f32_zero) eqn:E; [|rewrite E].
Qed.

(** C4, as stated, fails: line 111 writes [1e-5] into the zero entries
    of [counter] itself. *)
Lemma finalize_overwrites_counter : ¬ finalize_leaves_inputs unseen_point.
Proof. intros [Hc _]. vm_compute in Hc. discriminate. Qed.

(** C4, amended. Finalisation leaves [sum_features] and [vis_id] as they
    are and changes [counter] only where it is zero, to [1e-5]; run
    again on the accumulator it left, it changes nothing more and gives
    the same feature bank and the same point ids. *)
Theorem finalize_idempotent (st : Acc spec_float) :
  sum_features (finalize st).1 = sum_features st ∧
  vis_id (finalize st).1 = vis_id st ∧
  counter (finalize st).1 = eps_floor (counter st) ∧
  (∀ p c, counter st !! p = Some c →
          counter (finalize st).1 !! p = Some (if SFeqb c f32_zero then f32_eps else c)) ∧
  finalize (finalize st).1 = ((finalize st).1, (finalize st).2).
Proof.
  split_and!; [done..| |].
  - intros p c Hc. simpl. by rewrite eps_floor_lookup, Hc.
  - unfold finalize. simpl. by rewrite eps_floor_idem.
Qed.

Section NoFrames.
Context {F : Type} `{Scalar F}.

Lemma visible_ids_no_columns n : visible_ids (replicate n (replicate 0 0%Z)) = [].
Proof.
  apply elem_of_nil_inv. intros p Hp.
  apply elem_of_visible_ids in Hp as (row & k & x & Hrow & Hk & _).
  apply lookup_replicate in Hrow as [-> _]. done.
Qed.

Lemma divide_replicate n (row : list F) c :
  divide (replicate n row) (replicate n c) = replicate n ((λ s, fdiv s c) <$> row).
Proof. unfold divide. induction n as [|n IH]; simpl; [done|]. by rewrite IH. Qed.

Lemma eps_floor_zero n : feqb fzero fzero = true →
  eps_floor (replicate n fzero) = replicate n feps.
Proof. intros Hz. unfold eps_floor. by rewrite fmap_replicate, Hz. Qed.

Lemma prefetch_none args : prefetch args 0 = [].
Proof. unfold prefetch. by destruct (_ && _). Qed.

End NoFrames.

(** C5. A scene without frames: the loop body never runs, [counter] is
    0 at every point before line 111 and [1e-5] after, the feature bank
    is the zero matrix for all [n_points] points, no point id is
    visible, and [process_one_scene] ends normally with the call of
    [save_fused_feature] on them. *)
Theorem zero_views_scene (w : World spec_float) (data_path out_dir : string) (args : Args)
    (n_points : nat) :
  point_clouds w !! data_path = Some n_points →
  default [] (scene_views w !! join (data_root_2d args) [scene_id_of data_path]) = [] →
  (∃ n, n < num_rand_file_per_scene args ∧
        join out_dir [shard_name (scene_id_of data_path) n] ∉ files w) →
  ∃ st,
    fuse_views (feat_source args) n_points (feat_dim args) [] (prefetch args 0) = Some st ∧
    counter st = replicate n_points f32_zero ∧
    counter (finalize st).1 = replicate n_points f32_eps ∧
    feat_bank_of st = replicate n_points (replicate (feat_dim args) f32_zero) ∧
    point_ids_of st = [] ∧
    process_one_scene w data_path out_dir args
    = Saved (mkSaveCall (replicate n_points (replicate (feat_dim args) f32_zero)) []
               n_points out_dir (scene_id_of data_path)) [].
Proof.
  intros Hload Hviews Hmiss.
  exists (init_acc n_points (feat_dim args) 0 []).
  assert (Hfin : finalize (init_acc n_points (feat_dim args) 0 [])
    = (mkAcc (replicate n_points f32_eps)
             (replicate n_points (replicate (feat_dim args) f32_zero))
             (replicate n_points (replicate 0 0%Z)) [],
       (replicate n_points (replicate (feat_dim args) f32_zero), []))).
  { unfold finalize, init_acc. cbn [counter sum_features vis_id extract_calls].
    rewrite (eps_floor_zero (F := spec_float)) by done.
    rewrite divide_replicate, visible_ids_no_columns, fmap_replicate. done. }
  rewrite prefetch_none. split_and!; [done|done|by rewrite Hfin..|].
  rewrite (process_one_scene_run w data_path out_dir args n_points Hload Hmiss).
  unfold fuse_and_save. cbn [scene_views]. rewrite Hviews.
  change (length []) with 0. rewrite prefetch_none.
  unfold fuse_views. cbn [fuse_from fuse_from_gen length]. by rewrite Hfin.
Qed.

(** [zero_views_scene] on a validation scene of 3 points without frames. *)
Lemma zero_views_scene_witness :
  process_one_scene empty_scene "data/scannet_3d/val/scene0479_00_vh_clean_2.pth" "out" val_args
  = Saved (mkSaveCall (replicate 3 (replicate 768 f32_zero)) [] 3 "out" "scene0479_00") [].
Proof.
  destruct (zero_views_scene empty_scene "data/scannet_3d/val/scene0479_00_vh_clean_2.pth"
              "out" val_args 3) as (st & _ & _ & _ & _ & _ & Hrun).
  - reflexivity.
  - reflexivity.
  - exists 0. split; [vm_compute; lia|]. apply not_elem_of_empty.
  - exact Hrun.
Defined.

Section OneView.
Context {F : Type} `{Scalar F}.

Lemma accumulate_agree (sums g1 g2 : list (list F)) mask :
  length g1 = length g2 →
  (∀ p m, mask !! p = Some m → m ≠ 0%Z → g1 !! p = g2 !! p) →
  accumulate sums g1 mask = accumulate sums g2 mask.
Proof.
  revert g1 g2 mask.
  induction sums as [|s sums IH]; intros [|v1 g1] [|v2 g2] [|m mask] Hl Hag;
    simplify_eq/=; try done.
  rewrite (IH g1 g2 mask); [|lia|intros p m' ??; by apply (Hag (S p) m')].
  case_bool_decide as Hm; [|done].
  by specialize (Hag 0%nat m eq_refl Hm) as [= ->].
Qed.

(** C9. The pixel coordinates of masked-out points are not used: two
    outputs of the projector for one frame with the same visibility
    flags, the same pixel where the flag is set and any pixels inside
    the feature field elsewhere, update [counter], [sum_features] and
    [vis_id] (and raise) alike. *)
Theorem masked_coordinates_unused (src : FeatSource) (n_points img_id : nat) (st : Acc F)
    (v1 v2 : View F) :
  feat_2d v1 = feat_2d v2 →
  mask_of (mapping v1) = mask_of (mapping v2) →
  (∀ p rcm1 rcm2, mapping v1 !! p = Some rcm1 → mapping v2 !! p = Some rcm2 →
                  rcm1.2 ≠ 0%Z → rcm1.1 = rcm2.1) →
  is_Some (gather (feat_2d v1) (mapping v1)) →
  is_Some (gather (feat_2d v2) (mapping v2)) →
  fuse_view src n_points st img_id v1 = fuse_view src n_points st img_id v2.
Proof.
  intros Hfeat Hmask Hcoord [g1 Hg1] [g2 Hg2].
  assert (Hlen : length (mapping v1) = length (mapping v2))
    by (by rewrite <- !mask_of_length, Hmask).
  unfold fuse_view, fuse_view_gen, skipped, mask_sum.
  rewrite Hlen, Hmask, Hg1, Hg2. simpl.
  destruct (negb _); [done|]. destruct (_ =? _)%Z; [done|].
  rewrite (accumulate_agree _ g1 g2); [done| |].
  { by rewrite (gather_length _ _ _ Hg1), (gather_length _ _ _ Hg2). }
  intros p m Hm Hne.
  assert (is_Some (mapping v1 !! p)) as [rcm1 Hr1].
  { apply lookup_lt_is_Some. apply lookup_lt_Some in Hm.
    by rewrite <- mask_of_length, Hmask. }
  assert (is_Some (mapping v2 !! p)) as [rcm2 Hr2].
  { apply lookup_lt_is_Some. apply lookup_lt_Some in Hm.
    by rewrite <- mask_of_length. }
  destruct (gather_lookup _ _ _ _ _ Hg1 Hr1) as [-> _].
  destruct (gather_lookup _ _ _ _ _ Hg2 Hr2) as [-> _].
  assert (Hm2 : rcm2.2 = m).
  { unfold mask_of in Hm. rewrite list_lookup_fmap, Hr2 in Hm. by simplify_eq/=. }
  assert (Hm1 : rcm1.2 = m).
  { rewrite <- Hmask in Hm. unfold mask_of in Hm.
    rewrite list_lookup_fmap, Hr1 in Hm. by simplify_eq/=. }
  rewrite (Hcoord p rcm1 rcm2 Hr1 Hr2), Hfeat by congruence. done.
Qed.

End OneView.

(** [masked_coordinates_unused] on a frame and its copy with other masked-out pixels. *)
Lemma masked_coordinates_unused_witness :
  fuse_view OnTheFly 3 (init_acc 3 2 1 []) 0 frame_first_only
  = fuse_view OnTheFly 3 (init_acc 3 2 1 []) 0 frame_first_only'.
Proof.
  apply (masked_coordinates_unused OnTheFly 3 0 (init_acc 3 2 1 [])
           frame_first_only frame_first_only').
  - reflexivity.
  - reflexivity.
  - intros [|[|[|p]]] rcm1 rcm2 H1 H2 Hm; simpl in H1, H2;
      try discriminate; injection H1 as <-; injection H2 as <-;
      first [reflexivity | exfalso; apply Hm; reflexivity].
  - vm_compute. eexists. reflexivity.
  - vm_compute. eexists. reflexivity.
Defined.

(** ** The mean of the gathered features *)

Lemma fmap_zip_with_compose {A B C E} (g : C → E) (f : A → B → C) (l : list A) :
  ∀ k, g <$> zip_with f l k = zip_with (λ x y, g (f x y)) l k.
Proof. induction l as [|x l IH]; intros [|y k]; simpl; [done..|]. by rewrite IH. Qed.

Section Sums.
Context {F : Type} `{Scalar F}.

Lemma radd_length (s a : list F) : length (radd s a) = length s.
Proof.
  unfold radd. destruct (row_add s a) as [s'|] eqn:E; [|done].
  by apply row_add_length in E.
Qed.

Lemma radd_zip (s a : list F) : length a = length s → radd s a = zip_with fadd s a.
Proof. intros Hl. unfold radd, row_add. by rewrite Hl, Nat.eqb_refl. Qed.

Lemma foldl_radd_zip D (l : list (list F)) : ∀ s,
  length s = D → Forall (λ a, length a = D) l →
  foldl radd s l = foldl (zip_with fadd) s l.
Proof.
  induction l as [|a l IH]; intros s Hs Hl; simpl; [done|].
  apply Forall_cons in Hl as [Ha Hl].
  rewrite radd_zip by lia. apply IH; [|done]. rewrite length_zip_with. lia.
Qed.

Lemma feat_at_length (v : View F) p :
  is_Some (gather (feat_2d v) (mapping v)) → p < length (mapping v) →
  length (feat_at v p) = t_dim (feat_2d v).
Proof.
  intros [g Hg] Hp. destruct (lookup_lt_is_Some_2 _ _ Hp) as [rcm Hrcm].
  destruct (gather_lookup _ _ _ _ _ Hg Hrcm) as [Hgr [fv Hfv]].
  unfold feat_at. rewrite Hrcm. simpl. rewrite <- Hgr, Hfv. simpl.
  rewrite Hfv in Hgr. symmetry in Hgr. by apply gather_row_length in Hgr.
Qed.

Lemma elem_of_seen_in p (vs : list (View F)) v :
  v ∈ seen_in p vs ↔ v ∈ vs ∧ mask_at v p ≠ 0%Z.
Proof. unfold seen_in. rewrite list_elem_of_filter. naive_solver. Qed.

Lemma seen_in_length p (vs : list (View F)) : length (seen_in p vs) ≤ length vs.
Proof. apply length_filter. Qed.

(** The features added to a point all have the width of the frames'
    feature fields. *)
Lemma seen_feats_length src N D (vs : list (View F)) p :
  Forall binary_mask vs → Forall (view_ok true src N D) vs →
  Forall (λ v, t_dim (feat_2d v) = D) vs →
  Forall (λ a, length a = D) ((λ v, feat_at v p) <$> seen_in p vs).
Proof.
  intros Hb Hok Hdim. apply Forall_fmap, Forall_forall. intros v Hv. simpl.
  apply elem_of_seen_in in Hv as [Hin Hm].
  rewrite Forall_forall in Hb, Hok, Hdim. rewrite <- (Hdim v Hin).
  destruct (Hok v Hin) as [Hn Hproc].
  assert (Hp : processed true v = true).
  { pose proof (binary_sees true v p (Hb v Hin)) as Hs. unfold sees in Hs.
    rewrite bool_decide_eq_true_2 in Hs by done. by destruct (processed true v). }
  destruct (Hproc Hp) as (_ & Hg & _).
  rewrite feat_at_length; [done..|]. by apply mask_at_nonzero_lt.
Qed.

Lemma zip_with_zero_l D (a : list F) :
  length a = D → zip_with fadd (replicate D fzero) a = fadd fzero <$> a.
Proof.
  revert D. induction a as [|x a IH]; intros [|D] Hl; simplify_eq/=; [done|].
  by rewrite IH.
Qed.

End Sums.

Lemma f32_add_zero_l x : x ≠ S754_zero true → f32_add f32_zero x = x.
Proof. by destruct x as [[|]| | |]. Qed.

(** C1. After all frames of a scene, for every point the feature bank
    row is [sum_features[p] / counter[p]]: the sum, in frame order, of
    the features gathered in the frames that see the point, divided by
    their number; the counter is that number (a binary32 counter counts
    exactly up to 2^24 frames). A point seen in exactly two frames, with
    gathered features [v1] and [v2], ends with counter 2 and row
    [(v1 + v2) / 2]; a point seen in no frame has a zero sum, counter
    [1e-5] after line 111, and a zero row. *)
Theorem finalization_mean (src : FeatSource) (N D : nat) (vs : list (View spec_float))
    (pre : list nat) (st : Acc spec_float) :
  Forall binary_mask vs →
  Forall (λ v, t_dim (feat_2d v) = D) vs →
  (Z.of_nat (length vs) ≤ 16777216)%Z →
  fuse_views src N D vs pre = Some st →
  ∀ p, p < N →
    let k := length (seen_in p vs) in
    let total := foldl (zip_with f32_add) (replicate D f32_zero)
                   ((λ v, feat_at v p) <$> seen_in p vs) in
    let c := if decide (k = 0) then f32_eps else f32_of_Z (Z.of_nat k) in
    counter st !! p = Some (f32_of_Z (Z.of_nat k)) ∧
    f32_to_Z (f32_of_Z (Z.of_nat k)) = Some (Z.of_nat k) ∧
    sum_features st !! p = Some total ∧
    counter (finalize st).1 !! p = Some c ∧
    feat_bank_of st !! p = Some ((λ s, f32_div s c) <$> total) ∧
    (k = 0 → total = replicate D f32_zero ∧
             feat_bank_of st !! p = Some (replicate D f32_zero)) ∧
    (∀ v1 v2, seen_in p vs = [v1; v2] →
       counter st !! p = Some (f32_of_Z 2) ∧
       feat_bank_of st !! p
       = Some (zip_with (λ a b, f32_div (f32_add (f32_add f32_zero a) b) (f32_of_Z 2))
                 (feat_at v1 p) (feat_at v2 p)) ∧
       (Forall (λ a, a ≠ S754_zero true) (feat_at v1 p) →
        feat_bank_of st !! p
        = Some (zip_with (λ a b, f32_div (f32_add a b) (f32_of_Z 2))
                  (feat_at v1 p) (feat_at v2 p)))).
Proof.
  intros Hb Hdim Hmax Hf p Hp k total c.
  pose proof (fuse_from_ok_inv true src N D vs 0 _ st (init_acc_shape N D _ pre) Hf) as Hok.
  destruct (fuse_views_gen_spec true src N D _ vs pre st Hf) as [(Hlc & Hls & Hlv) Hlk].
  destruct (Hlk p Hp) as (Hc & Hs & _). clear Hlk.
  unfold addends in Hs. rewrite (binary_filter_sees true p vs Hb) in Hc, Hs.
  fold k in Hc.
  assert (Hk : (Z.of_nat k ≤ 16777216)%Z) by (pose proof (seen_in_length p vs); lia).
  pose proof (seen_feats_length src N D vs p Hb Hok Hdim) as Hfeats.
  rewrite (foldl_radd_zip D) in Hs; [|by rewrite length_replicate|done].
  change (zip_with fadd) with (zip_with f32_add) in Hs.
  change (@fzero spec_float float32) with f32_zero in Hs. fold total in Hs.
  rewrite f32_count_exact in Hc by done.
  assert (Hc' : counter (finalize st).1 !! p = Some c).
  { simpl. rewrite eps_floor_lookup, Hc. simpl. f_equal.
    rewrite <- (f32_count_exact k Hk).
    change (@feqb spec_float float32) with SFeqb.
    change (@fzero spec_float float32) with f32_zero.
    rewrite f32_count_eqb0, (f32_count_exact k Hk). unfold c.
    destruct (decide (k = 0)); [by rewrite bool_decide_eq_true_2|by rewrite bool_decide_eq_false_2]. }
  assert (Hbank : feat_bank_of st !! p = Some ((λ s, f32_div s c) <$> total)).
  { exact (divide_lookup (F := spec_float) _ _ p total c Hs Hc'). }
  split_and!; [done|by apply f32_to_Z_of_Z; lia|done..| |].
  - intros Hk0. assert (Ht : total = replicate D f32_zero).
    { unfold total. apply length_zero_iff_nil in Hk0. by rewrite Hk0. }
    split; [done|]. rewrite Hbank, Ht, fmap_replicate. unfold c.
    by rewrite decide_True by done.
  - intros v1 v2 Hseen.
    assert (Hk2 : k = 2) by (unfold k; by rewrite Hseen).
    rewrite Hseen in Hfeats. apply Forall_cons in Hfeats as [Hl1 Hfeats].
    apply Forall_cons in Hfeats as [Hl2 _]. simpl in Hl1, Hl2.
    assert (Hrow : (λ s, f32_div s c) <$> total
      = zip_with (λ a b, f32_div (f32_add (f32_add f32_zero a) b) (f32_of_Z 2))
          (feat_at v1 p) (feat_at v2 p)).
    { unfold total, c. rewrite Hseen, Hk2. cbn [fmap list_fmap foldl].
      pose proof (zip_with_zero_l (F := spec_float) D (feat_at v1 p) Hl1) as Hz.
      change (zip_with f32_add (replicate D f32_zero) (feat_at v1 p)
              = f32_add f32_zero <$> feat_at v1 p) in Hz.
      rewrite Hz, zip_with_fmap_l, fmap_zip_with_compose. done. }
    split_and!; [by rewrite Hc, Hk2|by rewrite Hbank, Hrow|].
    intros Hnz. rewrite Hbank, Hrow. f_equal. clear -Hnz.
    revert Hnz. generalize (feat_at v1 p) (feat_at v2 p).
    intros l1. induction l1 as [|a l1 IH]; intros [|b l2] Hnz; cbn [zip_with]; try done.
    apply Forall_cons in Hnz as [Ha Hnz]. rewrite (f32_add_zero_l a Ha). f_equal.
    by apply IH.
Qed.

(** [finalization_mean] on one point seen with features 3 and 5: counter 2, mean 4. *)
Lemma finalization_mean_witness :
  ∃ st, fuse_views OnTheFly 1 1 two_frames [] = Some st ∧
        counter st !! 0 = Some (f32_of_Z 2) ∧
        feat_bank_of st !! 0 = Some [f32_of_Z 4].
Proof.
  destruct (fuse_views OnTheFly 1 1 two_frames []) as [st|] eqn:Hf;
    [|vm_compute in Hf; discriminate].
  exists st. split; [reflexivity|].
  assert (Hb : Forall binary_mask two_frames) by by_computation.
  assert (Hd : Forall (λ v : View spec_float, t_dim (feat_2d v) = 1) two_frames)
    by by_computation.
  assert (Hmax : (Z.of_nat (length two_frames) ≤ 16777216)%Z) by (simpl; lia).
  destruct (finalization_mean OnTheFly 1 1 two_frames [] st Hb Hd Hmax Hf 0 ltac:(lia))
    as (_ & _ & _ & _ & _ & _ & Htwo).
  destruct (Htwo _ _ eq_refl) as (Hc & Hbank & _).
  split; [exact Hc|exact Hbank].
Defined.

Section Seen.
Context {F : Type} `{Scalar F}.

Lemma seen_in_nonempty p (vs : list (View F)) :
  length (seen_in p vs) ≠ 0 ↔ ∃ v, v ∈ vs ∧ mask_at v p ≠ 0%Z.
Proof.
  split.
  - intros Hl. destruct (seen_in p vs) as [|v l] eqn:E; [done|].
    exists v. apply elem_of_seen_in. rewrite E. by left.
  - intros (v & Hv). apply elem_of_seen_in in Hv.
    by destruct (seen_in p vs); [apply elem_of_nil in Hv|].
Qed.

Lemma binary_processed (vs : list (View F)) p :
  Forall binary_mask vs →
  (∃ v, v ∈ vs ∧ processed true v = true ∧ mask_at v p ≠ 0%Z)
  ↔ ∃ v, v ∈ vs ∧ mask_at v p ≠ 0%Z.
Proof.
  intros Hb. split; [naive_solver|]. intros (v & Hv & Hm). exists v.
  split_and!; [done| |done]. rewrite Forall_forall in Hb.
  pose proof (binary_sees true v p (Hb v Hv)) as Hs. unfold sees in Hs.
  rewrite bool_decide_eq_true_2 in Hs by done. by destruct (processed true v).
Qed.

End Seen.

(** C3. [point_ids] lists, in increasing order and once each, exactly
    the points whose visibility flag is set in at least one frame: the
    rows of the ledger [vis_id] with a non-zero entry; and they are the
    points whose counter is at least 1 before line 111. *)
Theorem visible_ids_correct (src : FeatSource) (N D : nat) (vs : list (View spec_float))
    (pre : list nat) (st : Acc spec_float) :
  Forall binary_mask vs →
  fuse_views src N D vs pre = Some st →
  StronglySorted lt (point_ids_of st) ∧
  ∀ p,
    (p ∈ point_ids_of st ↔ p < N ∧ ∃ v, v ∈ vs ∧ mask_at v p ≠ 0%Z) ∧
    (p ∈ point_ids_of st ↔
       ∃ row k x, vis_id st !! p = Some row ∧ row !! k = Some x ∧ x ≠ 0%Z) ∧
    (p ∈ point_ids_of st ↔ ∃ c, counter st !! p = Some c ∧ SFleb f32_one c = true).
Proof.
  intros Hb Hf. split; [apply unique_sorted|]. intros p.
  destruct (fuse_views_gen_spec true src N D _ vs pre st Hf) as [(Hlc & Hls & Hlv) Hlk].
  assert (Hrows : p ∈ point_ids_of st ↔
    ∃ row k x, vis_id st !! p = Some row ∧ row !! k = Some x ∧ x ≠ 0%Z)
    by apply elem_of_visible_ids.
  assert (Hseen : p ∈ point_ids_of st ↔ p < N ∧ ∃ v, v ∈ vs ∧ mask_at v p ≠ 0%Z).
  { rewrite Hrows. destruct (decide (p < N)) as [Hp|Hp].
    - destruct (Hlk p Hp) as (_ & _ & Hvis). rewrite Hvis.
      rewrite <- (binary_processed vs p Hb), <- set_cols_nonzero. naive_solver.
    - rewrite lookup_ge_None_2 by lia. naive_solver. }
  split_and!; [done..|]. rewrite Hseen. destruct (decide (p < N)) as [Hp|Hp].
  - destruct (Hlk p Hp) as (Hc & _ & _). rewrite Hc.
    rewrite (binary_filter_sees true p vs Hb), <- seen_in_nonempty.
    split.
    + intros [_ Hne]. eexists. split; [done|].
      change (@fone spec_float float32) with f32_one.
      by rewrite f32_count_ge1, bool_decide_eq_true_2.
    + intros (c & [= <-] & Hge). split; [done|].
      rewrite f32_count_ge1 in Hge. by apply bool_decide_eq_true_1 in Hge.
  - rewrite lookup_ge_None_2 by lia. naive_solver.
Qed.

(** [visible_ids_correct] on three points of which one frame sees the first. *)
Lemma visible_ids_correct_witness :
  ∃ st, fuse_views OnTheFly 3 2 [frame_first_only; frame_blind] [] = Some st ∧
        point_ids_of st = [0] ∧
        (0 ∈ point_ids_of st ↔
           0 < 3 ∧ ∃ v, v ∈ [frame_first_only; frame_blind] ∧ mask_at v 0 ≠ 0%Z).
Proof.
  destruct (fuse_views OnTheFly 3 2 [frame_first_only; frame_blind] []) as [st|] eqn:Hf;
    [|vm_compute in Hf; discriminate].
  exists st. split; [reflexivity|]. split.
  - vm_compute in Hf. injection Hf as <-. vm_compute. reflexivity.
  - assert (Hb : Forall binary_mask [frame_first_only; frame_blind]) by by_computation.
    destruct (visible_ids_correct OnTheFly 3 2 _ [] st Hb Hf) as [_ Hp].
    exact (proj1 (Hp 0)).
Defined.

(** ** The invariant of the accumulators *)

(** C7, as stated, fails: features are signed, so a sum can be
    negative, and a point that has been seen can have an all-zero sum. *)
Lemma signed_features_break_invariant :
  (∃ st, fuse_views OnTheFly 1 1 [one_point_view (f32_of_Z (-1))] [] = Some st ∧
         ¬ claimed_invariant 1 st) ∧
  (∃ st, fuse_views OnTheFly 1 1 [one_point_view f32_zero] [] = Some st ∧
         ¬ claimed_invariant 1 st).
Proof.
  split; eexists; (split; [vm_compute; reflexivity|]).
  - intros (_ & _ & _ & Hs & _). apply Forall_cons in Hs as [Hs _].
    apply Forall_cons in Hs as [Hs _]. vm_compute in Hs. discriminate.
  - intros (_ & _ & _ & _ & Hiff).
    destruct (Hiff 0 f32_one [f32_zero] eq_refl eq_refl) as [_ Hz].
    specialize (Hz ltac:(by repeat constructor)). vm_compute in Hz. discriminate.
Qed.

(** C7, amended. After any number of frames of a scene, [counter] and
    [sum_features] have [N] rows (of [D] features), every counter is
    non-negative, and a point whose counter is zero has an all-zero row
    of sums. (Sums may be negative, and a seen point may have a zero
    sum.) *)
Theorem accumulator_invariant (src : FeatSource) (N D : nat) (before rest : list (View spec_float))
    (pre : list nat) (st : Acc spec_float) :
  fuse_from src N 0 before (init_acc N D (length (before ++ rest)) pre) = Some st →
  acc_shape N D st ∧
  Forall (λ c, SFleb f32_zero c = true) (counter st) ∧
  ∀ p c s, counter st !! p = Some c → sum_features st !! p = Some s →
    SFeqb c f32_zero = true →
    s = replicate D f32_zero ∧ Forall (λ x, SFeqb x f32_zero = true) s.
Proof.
  intros Hf. unfold fuse_from in Hf.
  pose proof (fuse_from_ok_inv true src N D before 0 _ st (init_acc_shape N D _ pre) Hf) as Hok.
  destruct (fuse_from_ok true src N D before 0 (init_acc N D (length (before ++ rest)) pre)
              (init_acc_shape N D _ pre) Hok) as (st' & Hf' & Hshape).
  simplify_eq.
  destruct (fuse_views_gen_spec true src N D _ before pre st Hf) as [(Hlc & Hls & Hlv) Hlk].
  split_and!; [done| |].
  - apply Forall_lookup. intros p c Hc.
    assert (Hp : p < N) by (apply lookup_lt_Some in Hc; lia).
    destruct (Hlk p Hp) as (Hc' & _ & _). simplify_eq. apply f32_count_nonneg.
  - intros p c s Hc Hs Hz.
    assert (Hp : p < N) by (apply lookup_lt_Some in Hc; lia).
    destruct (Hlk p Hp) as (Hc' & Hs' & _). simplify_eq.
    change (@fzero spec_float float32) with f32_zero.
    rewrite f32_count_eqb0 in Hz. apply bool_decide_eq_true_1 in Hz.
    apply length_zero_iff_nil in Hz. unfold addends. rewrite Hz. simpl.
    split; [done|]. by apply Forall_replicate.
Qed.

(** [accumulator_invariant] after the first of two frames. *)
Lemma accumulator_invariant_witness :
  ∃ st, fuse_from OnTheFly 3 0 [frame_first_only]
          (init_acc 3 2 (length ([frame_first_only] ++ [frame_blind])) []) = Some st ∧
        acc_shape 3 2 st ∧
        Forall (λ c, SFleb f32_zero c = true) (counter st).
Proof.
  destruct (fuse_from OnTheFly 3 0 [frame_first_only]
              (init_acc 3 2 (length ([frame_first_only] ++ [frame_blind])) []))
    as [st|] eqn:Hf; [|vm_compute in Hf; discriminate].
  exists st. split; [reflexivity|].
  destruct (accumulator_invariant OnTheFly 3 2 [frame_first_only] [frame_blind] [] st Hf)
    as (Hshape & Hnonneg & _).
  split; [exact Hshape|exact Hnonneg].
Defined.

(** ** Skipping frames that see nothing *)

Section Skip.
Context {F : Type} `{Scalar F}.

Lemma all_zero_skipped (v : View F) :
  Forall (λ m, m = 0%Z) (mask_of (mapping v)) → skipped v = true.
Proof.
  unfold skipped, mask_sum. intros Hz. apply Z.eqb_eq.
  induction Hz as [|m l -> _ IH]; simpl; [done|]. by rewrite IH.
Qed.

Lemma view_ok_skip src N D (v : View F) : view_ok false src N D v → view_ok true src N D v.
Proof. intros [Hn Hok]. split; [done|]. intros _. by apply Hok. Qed.

(** On a ledger row of zeros, writing the column of a skipped frame
    changes nothing. *)
Lemma set_cols_skip p V (vs : list (View F)) :
  Forall binary_mask vs →
  set_cols true p 0 vs (replicate V 0%Z) = set_cols false p 0 vs (replicate V 0%Z).
Proof.
  intros Hb. apply list_eq. intros k. rewrite !set_cols_lookup.
  rewrite decide_True by lia. destruct (vs !! (k - 0)) as [v|] eqn:Hv; [|done].
  unfold processed at 2. simpl. destruct (processed true v) eqn:Hp; [done|].
  assert (Hin : v ∈ vs) by (by eapply list_elem_of_lookup_2).
  rewrite Forall_forall in Hb. unfold processed in Hp. simpl in Hp.
  apply negb_false_iff in Hp. rewrite (binary_skipped v p (Hb v Hin) Hp).
  destruct (decide (k < V)) as [Hk|Hk].
  - by rewrite lookup_replicate_2.
  - by rewrite lookup_ge_None_2 by (rewrite length_replicate; lia).
Qed.

(** Two accumulators with equal rows at every point are equal. *)
Lemma rows_eq {A} N (l1 l2 : list A) :
  length l1 = N → length l2 = N → (∀ p, p < N → l1 !! p = l2 !! p) → l1 = l2.
Proof.
  intros H1 H2 Hp. apply list_eq. intros p. destruct (decide (p < N)); [by apply Hp|].
  by rewrite !lookup_ge_None_2 by lia.
Qed.

(** C6. A frame whose visibility mask is all false is skipped by the
    test of line 95, and the loop does not call the feature extractor
    for it: extracting on the fly (as [main] sets
    [keep_features_in_memory = False]) the extractor is never called for
    it. Whenever the loop without the test runs through, the driver does
    too, with the same counters, sums, ledger, feature bank and point
    ids. *)
Theorem skip_equivalence (args : Args) (N : nat) (vs : list (View F)) (st_all : Acc F) :
  Forall binary_mask vs →
  fuse_views_noskip (feat_source args) N (feat_dim args) vs (prefetch args (length vs))
    = Some st_all →
  ∃ st,
    fuse_views (feat_source args) N (feat_dim args) vs (prefetch args (length vs)) = Some st ∧
    counter st = counter st_all ∧
    sum_features st = sum_features st_all ∧
    vis_id st = vis_id st_all ∧
    feat_bank_of st = feat_bank_of st_all ∧
    point_ids_of st = point_ids_of st_all ∧
    extract_calls st
    = prefetch args (length vs)
      ++ (if keep_features_in_memory args then [] else calls_of true 0 vs) ∧
    ∀ i v, vs !! i = Some v → Forall (λ m, m = 0%Z) (mask_of (mapping v)) →
           skipped v = true ∧ (i ∉ calls_of true 0 vs) ∧
           (keep_features_in_memory args = false → i ∉ extract_calls st).
Proof.
  intros Hb Hall. unfold fuse_views_noskip, fuse_views, fuse_from in *.
  set (src := feat_source args) in *. set (D := feat_dim args) in *.
  set (pre := prefetch args (length vs)) in *.
  pose proof (fuse_from_ok_inv false src N D vs 0 _ st_all (init_acc_shape N D _ pre) Hall)
    as Hok.
  assert (Hok' : Forall (view_ok true src N D) vs)
    by (eapply Forall_impl; [done|apply view_ok_skip]).
  destruct (fuse_from_ok true src N D vs 0 (init_acc N D (length vs) pre)
              (init_acc_shape N D _ pre) Hok') as (st & Hf & _).
  exists st. split; [done|].
  destruct (fuse_views_gen_spec true src N D _ vs pre st Hf) as [(Hlc & Hls & Hlv) Hlk].
  destruct (fuse_views_gen_spec false src N D _ vs pre st_all Hall)
    as [(Hlc' & Hls' & Hlv') Hlk'].
  assert (Hc : counter st = counter st_all).
  { apply (rows_eq N); [done..|]. intros p Hp.
    destruct (Hlk p Hp) as (-> & _ & _). destruct (Hlk' p Hp) as (-> & _ & _).
    by rewrite !binary_filter_sees. }
  assert (Hs : sum_features st = sum_features st_all).
  { apply (rows_eq N); [done..|]. intros p Hp.
    destruct (Hlk p Hp) as (_ & -> & _). destruct (Hlk' p Hp) as (_ & -> & _).
    unfold addends. by rewrite !binary_filter_sees. }
  assert (Hv : vis_id st = vis_id st_all).
  { apply (rows_eq N); [done..|]. intros p Hp.
    destruct (Hlk p Hp) as (_ & _ & ->). destruct (Hlk' p Hp) as (_ & _ & ->).
    by rewrite set_cols_skip. }
  assert (Hcalls : extract_calls st
    = pre ++ (if keep_features_in_memory args then [] else calls_of true 0 vs)).
  { rewrite (fuse_from_calls _ _ _ _ _ _ _ Hf). unfold src, feat_source. simpl.
    destruct (keep_features_in_memory args); [|done]. by destruct (openseg_model args). }
  split_and!; [done..| | |done|].
  - simpl. by rewrite Hc, Hs.
  - simpl. by rewrite Hv.
  - intros i v Hi Hz. pose proof (all_zero_skipped v Hz) as Hskip.
    assert (Hloop : i ∉ calls_of true 0 vs).
    { intros Hin. apply elem_of_calls_of in Hin as (v' & _ & Hv' & Hp).
      rewrite Nat.sub_0_r in Hv'. simplify_eq. unfold processed in Hp.
      by rewrite Hskip in Hp. }
    split_and!; [done..|]. intros Hkeep. rewrite Hcalls. unfold pre, prefetch.
    by rewrite Hkeep.
Qed.

End Skip.

(** [skip_equivalence] on two frames that see nothing: no extraction, zero bank. *)
Lemma skip_equivalence_witness :
  ∃ st, fuse_views OnTheFly 3 768 [frame_blind; frame_blind] [] = Some st ∧
        feat_bank_of st = replicate 3 (replicate 768 f32_zero) ∧
        point_ids_of st = [] ∧
        1 ∉ extract_calls st.
Proof.
  assert (Hnoskip : fuse_views_noskip (feat_source val_args) 3 (feat_dim val_args)
                      [frame_blind; frame_blind] (prefetch val_args 2)
                    = Some (init_acc 3 768 2 [0; 1])).
  { vm_compute. reflexivity. }
  destruct (skip_equivalence val_args 3 [frame_blind; frame_blind] _
              ltac:(by_computation) Hnoskip)
    as (st & Hf & _ & _ & _ & Hbank & Hids & _ & Hcalls).
  exists st. split; [exact Hf|]. split_and!.
  - rewrite Hbank. vm_compute. reflexivity.
  - rewrite Hids. vm_compute. reflexivity.
  - destruct (Hcalls 1 frame_blind eq_refl ltac:(by_computation)) as (_ & _ & Hnot).
    exact (Hnot eq_refl).
Defined.

(** ** The order of the frames *)

Lemma foldl_permutation {A B} (f : A → B → A) (l l' : list B) :
  (∀ s a b, f (f s a) b = f (f s b) a) →
  l ≡ₚ l' → ∀ s, foldl f s l = foldl f s l'.
Proof.
  intros Hf. induction 1 as [|x l l' _ IH|x y l|l1 l2 l3 _ IH1 _ IH2]; intros s; simpl.
  - done.
  - apply IH.
  - by rewrite Hf.
  - by rewrite IH1.
Qed.

Section Order.
Context {F : Type} `{Scalar F}.

Lemma radd_lookup (s a : list F) j :
  radd s a !! j = (λ x, from_option (fadd x) x (coef (length s) a j)) <$> s !! j.
Proof.
  unfold radd, row_add, coef. destruct (Nat.eqb_spec (length a) (length s)) as [E|E]; simpl.
  - rewrite lookup_zip_with. destruct (s !! j) as [x|] eqn:Hx; simpl; [|done].
    assert (is_Some (a !! j)) as [y ->]; [|done].
    apply lookup_lt_is_Some. apply lookup_lt_Some in Hx. lia.
  - destruct a as [|y [|??]]; simpl.
    + by destruct (s !! j).
    + by rewrite list_lookup_fmap.
    + by destruct (s !! j).
Qed.

Lemma radd_comm (s a b : list F) :
  (∀ x y z : F, fadd (fadd x y) z = fadd x (fadd y z)) →
  (∀ x y : F, fadd x y = fadd y x) →
  radd (radd s a) b = radd (radd s b) a.
Proof.
  intros Hassoc Hcomm. apply list_eq. intros j.
  rewrite !radd_lookup, !radd_length. destruct (s !! j) as [x|]; simpl; [|done].
  f_equal. destruct (coef (length s) a j) as [y|], (coef (length s) b j) as [z|];
    simpl; try done.
  by rewrite !Hassoc, (Hcomm y z).
Qed.

(** The points a scene's ledger marks, without assuming 0/1 flags. *)
Lemma elem_of_fused_ids src N D (vs : list (View F)) pre st p :
  fuse_views src N D vs pre = Some st →
  p ∈ visible_ids (vis_id st) ↔
  p < N ∧ ∃ v, v ∈ vs ∧ processed true v = true ∧ mask_at v p ≠ 0%Z.
Proof.
  intros Hf.
  destruct (fuse_views_gen_spec true src N D _ vs pre st Hf) as [(Hlc & Hls & Hlv) Hlk].
  rewrite elem_of_visible_ids. destruct (decide (p < N)) as [Hp|Hp].
  - destruct (Hlk p Hp) as (_ & _ & Hvis). rewrite Hvis, <- set_cols_nonzero. naive_solver.
  - rewrite lookup_ge_None_2 by lia. naive_solver.
Qed.

(** C2, amended. For every permutation of the frames of a scene the
    loop raises alike, and the counters and the visible point ids are
    identical. The feature sums are taken in frame order: in arithmetic
    whose addition is associative and commutative the sums and the
    feature bank are identical too; binary32 addition is not associative,
    so there they agree up to rounding only. *)
Theorem order_independence (src : FeatSource) (N D : nat) (vs vs' : list (View F))
    (pre : list nat) :
  vs ≡ₚ vs' →
  (is_Some (fuse_views src N D vs pre) ↔ is_Some (fuse_views src N D vs' pre)) ∧
  ∀ st st',
    fuse_views src N D vs pre = Some st →
    fuse_views src N D vs' pre = Some st' →
    counter st = counter st' ∧
    point_ids_of st = point_ids_of st' ∧
    ((∀ x y z : F, fadd (fadd x y) z = fadd x (fadd y z)) →
     (∀ x y : F, fadd x y = fadd y x) →
     sum_features st = sum_features st' ∧ feat_bank_of st = feat_bank_of st').
Proof.
  intros Hperm. split.
  - unfold fuse_views, fuse_from.
    rewrite !(fuse_from_is_Some true src N D) by apply init_acc_shape.
    by rewrite Hperm.
  - intros st st' Hf Hf'.
    destruct (fuse_views_gen_spec true src N D _ vs pre st Hf) as [(Hlc & Hls & Hlv) Hlk].
    destruct (fuse_views_gen_spec true src N D _ vs' pre st' Hf')
      as [(Hlc' & Hls' & Hlv') Hlk'].
    assert (Hc : counter st = counter st').
    { apply (rows_eq N); [done..|]. intros p Hp.
      destruct (Hlk p Hp) as (-> & _ & _). destruct (Hlk' p Hp) as (-> & _ & _).
      do 2 f_equal. apply Permutation_length. by apply filter_Permutation. }
    assert (Hids : visible_ids (vis_id st) = visible_ids (vis_id st')).
    { apply sorted_lt_ext; [apply unique_sorted..|]. intros p.
      rewrite (elem_of_fused_ids src N D vs pre st p Hf).
      rewrite (elem_of_fused_ids src N D vs' pre st' p Hf').
      split; intros [Hp (v & Hv & Hrest)]; (split; [done|]); exists v;
        (split; [|done]); [by rewrite <- Hperm|by rewrite Hperm]. }
    split_and!; [done..|]. intros Hassoc Hcomm.
    assert (Hs : sum_features st = sum_features st').
    { apply (rows_eq N); [done..|]. intros p Hp.
      destruct (Hlk p Hp) as (_ & -> & _). destruct (Hlk' p Hp) as (_ & -> & _).
      f_equal. apply foldl_permutation.
      - intros s a b. by apply radd_comm.
      - unfold addends. apply fmap_Permutation. by apply filter_Permutation. }
    split; [done|]. simpl. by rewrite Hc, Hs.
Qed.

End Order.

(** [order_independence] in exact arithmetic, on features 1, 2, 3 and 3, 1, 2. *)
Lemma order_independence_witness :
  ∃ st st',
    fuse_views OnTheFly 1 1 [exact_view 1; exact_view 2; exact_view 3] [] = Some st ∧
    fuse_views OnTheFly 1 1 [exact_view 3; exact_view 1; exact_view 2] [] = Some st' ∧
    counter st = counter st' ∧
    point_ids_of st = point_ids_of st' ∧
    feat_bank_of st = feat_bank_of st'.
Proof.
  destruct (fuse_views OnTheFly 1 1 [exact_view 1; exact_view 2; exact_view 3] [])
    as [st|] eqn:Hf; [|vm_compute in Hf; discriminate].
  destruct (fuse_views OnTheFly 1 1 [exact_view 3; exact_view 1; exact_view 2] [])
    as [st'|] eqn:Hf'; [|vm_compute in Hf'; discriminate].
  exists st, st'. split; [reflexivity|]. split; [reflexivity|].
  assert (Hperm : [exact_view 1; exact_view 2; exact_view 3]
                  ≡ₚ [exact_view 3; exact_view 1; exact_view 2]).
  { apply (Permutation_cons_app [exact_view 3]). apply (Permutation_cons_app [exact_view 3]).
    reflexivity. }
  destruct (order_independence OnTheFly 1 1 _ _ [] Hperm) as [_ Hall].
  destruct (Hall st st' Hf Hf') as (Hc & Hids & Hexact).
  destruct (Hexact (λ x y z, eq_sym (Qcplus_assoc x y z)) Qcplus_comm) as [_ Hbank].
  split; [exact Hc|]. split; [exact Hids|exact Hbank].
Defined.

(** C2, as stated, fails in binary32: [(32768 + 2^-9) + 2^-9] rounds to
    32768 twice, [(2^-9 + 2^-9) + 32768] is exact, and the two feature
    banks differ. *)
Lemma frame_order_changes_bank :
  [frame_big; frame_small; frame_small] ≡ₚ [frame_small; frame_small; frame_big] ∧
  bank_of [frame_big; frame_small; frame_small]
    = Some [[S754_finite false 11184811 (-10)]] ∧
  bank_of [frame_small; frame_small; frame_big]
    = Some [[S754_finite false 11184812 (-10)]] ∧
  bank_of [frame_big; frame_small; frame_small]
    ≠ bank_of [frame_small; frame_small; frame_big].
Proof.
  split_and!.
  - etrans; [apply Permutation_swap|]. apply Permutation_skip, Permutation_swap.
  - by vm_compute.
  - by vm_compute.
  - vm_compute. discriminate.
Qed.

(** * Further properties of the script *)

(** ** Pixels in and out of the feature field, line 106 *)

Lemma py_index_is_Some size i :
  is_Some (py_index size i) ↔ (- Z.of_nat size ≤ i < Z.of_nat size)%Z.
Proof.
  unfold py_index. repeat case_bool_decide; split; intros Hx; eauto; try lia;
    by destruct Hx.
Qed.

Lemma py_index_mod size i :
  (- Z.of_nat size ≤ i < Z.of_nat size)%Z →
  py_index size i = Some (Z.to_nat (i mod Z.of_nat size)).
Proof.
  intros Hi. unfold py_index. case_bool_decide as H0.
  - by rewrite Z.mod_small.
  - rewrite bool_decide_eq_true_2 by lia. do 2 f_equal.
    rewrite <- (Z_mod_plus_full i 1). rewrite Z.mod_small; lia.
Qed.

Section Pixels.
Context {F : Type} `{Scalar F}.

Lemma gather_row_is_Some (t : Tensor3 F) r c :
  is_Some (gather_row t r c) ↔
  (- Z.of_nat (t_h t) ≤ r < Z.of_nat (t_h t))%Z ∧
  (- Z.of_nat (t_w t) ≤ c < Z.of_nat (t_w t))%Z.
Proof.
  rewrite <- !py_index_is_Some. unfold gather_row.
  destruct (py_index (t_h t) r), (py_index (t_w t) c); simpl; split;
    try (intros [? ?]); try (intros [[? ?] [? ?]]); eauto; done.
Qed.

Lemma gather_is_Some (t : Tensor3 F) m :
  is_Some (gather t m) ↔ Forall (in_field t) m.
Proof.
  unfold gather. rewrite mapM_is_Some. apply Forall_proper; [|done].
  intros [[r c] k]. apply gather_row_is_Some.
Qed.

(** X1. The gather of line 106, [feat_2d[:, mapping[:, 1], mapping[:, 2]]],
    indexes the feature field with the pixel of every point, visible or
    not: it returns exactly when every row of the mapping has its pixel
    row in [-h, h) and its pixel column in [-w, w), and raises an
    IndexError otherwise. What it returns has one row per point, of as
    many entries as the field has channels. *)
Theorem gather_raises_outside (t : Tensor3 F) (m : list (Z * Z * Z)) :
  (is_Some (gather t m) ↔
     ∀ p r c k, m !! p = Some (r, c, k) →
       (- Z.of_nat (t_h t) ≤ r < Z.of_nat (t_h t))%Z ∧
       (- Z.of_nat (t_w t) ≤ c < Z.of_nat (t_w t))%Z) ∧
  ∀ g, gather t m = Some g →
    length g = length m ∧ Forall (λ row, length row = t_dim t) g.
Proof.
  split.
  - rewrite gather_is_Some, Forall_lookup. split.
    + intros Hall p r c k Hp. apply (Hall p _ Hp).
    + intros Hall p [[r c] k] Hp. by apply (Hall p r c k).
  - intros g Hg. split; [by eapply gather_length|].
    apply Forall_lookup. intros p row Hrow.
    destruct (lookup_lt_is_Some_2 m p) as [rcm Hrcm].
    { rewrite <- (gather_length _ _ _ Hg). by eapply lookup_lt_Some. }
    destruct (gather_lookup _ _ _ _ _ Hg Hrcm) as [Hgr _].
    rewrite Hrow in Hgr. symmetry in Hgr. by eapply gather_row_length.
Qed.

(** X2. A pixel coordinate inside the range is taken modulo the size
    of its dimension: a negative row [r] reads row [r + h] and a
    negative column [c] reads column [c + w], without an exception. *)
Theorem pixel_index_wraps (t : Tensor3 F) (r c : Z) :
  (- Z.of_nat (t_h t) ≤ r < Z.of_nat (t_h t))%Z →
  (- Z.of_nat (t_w t) ≤ c < Z.of_nat (t_w t))%Z →
  gather_row t r c
  = Some ((λ d, t_at t d (Z.to_nat (r mod Z.of_nat (t_h t)))
                         (Z.to_nat (c mod Z.of_nat (t_w t)))) <$> seq 0 (t_dim t)) ∧
  ((r < 0)%Z → gather_row t r c = gather_row t (r + Z.of_nat (t_h t)) c) ∧
  ((c < 0)%Z → gather_row t r c = gather_row t r (c + Z.of_nat (t_w t))).
Proof.
  intros Hr Hc.
  assert (Hv : ∀ r' c', (- Z.of_nat (t_h t) ≤ r' < Z.of_nat (t_h t))%Z →
    (- Z.of_nat (t_w t) ≤ c' < Z.of_nat (t_w t))%Z →
    gather_row t r' c'
    = Some ((λ d, t_at t d (Z.to_nat (r' mod Z.of_nat (t_h t)))
                           (Z.to_nat (c' mod Z.of_nat (t_w t)))) <$> seq 0 (t_dim t))).
  { intros r' c' Hr' Hc'. unfold gather_row.
    by rewrite (py_index_mod _ r' Hr'), (py_index_mod _ c' Hc'). }
  split_and!; [by apply Hv| |].
  - intros Hneg. rewrite !Hv by lia. by rewrite <- (Z_mod_plus_full r 1), Z.mul_1_l.
  - intros Hneg. rewrite !Hv by lia. by rewrite <- (Z_mod_plus_full c 1), Z.mul_1_l.
Qed.

End Pixels.

(** [pixel_index_wraps] on the pixel (-1, -3) of a 2 x 3 field: it reads
    the pixel (1, 0). *)
Lemma pixel_index_wraps_witness :
  gather_row numbered_field (-1) (-3) = Some [f32_of_Z 3] ∧
  gather_row numbered_field (-1) (-3) = gather_row numbered_field 1 (-3) ∧
  gather_row numbered_field (-1) (-3) = gather_row numbered_field (-1) 0.
Proof.
  destruct (pixel_index_wraps numbered_field (-1) (-3)) as (Hv & Hr & Hc);
    [simpl; lia..|].
  split_and!; [exact Hv|exact (Hr ltac:(lia))|exact (Hc ltac:(lia))].
Defined.

(** ** When the view loop raises, lines 84-109 *)

Section Raising.
Context {F : Type} `{Scalar F}.










End Raising.




(** ** The ledger and the shape of the outputs *)

Section Ledger.
Context {F : Type} `{Scalar F}.


Lemma fuse_views_shape (src : FeatSource) (N D : nat) (vs : list (View F)) (pre : list nat)
    (st : Acc F) :
  fuse_views src N D vs pre = Some st → acc_shape N D st.
Proof.
  intros Hf. unfold fuse_views, fuse_from in Hf.
  pose proof (fuse_from_ok_inv true src N D vs 0 _ st (init_acc_shape N D _ pre) Hf) as Hok.
  destruct (fuse_from_ok true src N D vs 0 _ (init_acc_shape N D (length vs) pre) Hok)
    as (st' & Hf' & Hshape).
  by simplify_eq.
Qed.

Lemma eps_floor_length (cs : list F) : length (eps_floor cs) = length cs.
Proof. unfold eps_floor. by rewrite length_fmap. Qed.

Lemma sorted_lt_bounded_length (l : list nat) N :
  StronglySorted lt l → Forall (λ p, p < N) l → length l ≤ N.
Proof.
  intros Hs Hb. transitivity (length (seq 0 N)); [|by rewrite length_seq].
  apply submseteq_length, NoDup_submseteq.
  - by apply sorted_lt_NoDup.
  - intros p Hp. rewrite Forall_forall in Hb. apply elem_of_seq. specialize (Hb p Hp). lia.
Qed.

Lemma bank_shape (N D : nat) (st : Acc F) :
  acc_shape N D st →
  length (feat_bank_of st) = N ∧ Forall (λ row, length row = D) (feat_bank_of st).
Proof.
  intros (Hc & Hs & Hv & Hrows). simpl. split.
  - unfold divide. rewrite length_zip_with, eps_floor_length. lia.
  - unfold divide. apply Forall_lookup. intros p row Hrow.
    apply lookup_zip_with_Some in Hrow as (s & c & -> & Hs' & _).
    rewrite length_fmap. by eapply Forall_lookup_1 in Hrows.
Qed.

Lemma point_ids_bounded (src : FeatSource) (N D : nat) (vs : list (View F)) (pre : list nat)
    (st : Acc F) :
  fuse_views src N D vs pre = Some st → Forall (λ p, p < N) (point_ids_of st).
Proof.
  intros Hf. apply Forall_forall. intros p Hp. simpl in Hp.
  by apply (elem_of_fused_ids src N D vs pre st p Hf) in Hp as [Hp _].
Qed.

(** X7. The feature bank of line 112 has [n_points] rows of [feat_dim]
    entries each, and every id of [point_ids] (line 113) is below
    [n_points], so there are at most [n_points] of them. *)
Theorem outputs_shape (src : FeatSource) (N D : nat) (vs : list (View F)) (pre : list nat)
    (st : Acc F) :
  fuse_views src N D vs pre = Some st →
  length (feat_bank_of st) = N ∧
  Forall (λ row, length row = D) (feat_bank_of st) ∧
  Forall (λ p, p < N) (point_ids_of st) ∧
  length (point_ids_of st) ≤ N.
Proof.
  intros Hf. destruct (bank_shape N D st (fuse_views_shape _ _ _ _ _ _ Hf)) as [Hb1 Hb2].
  pose proof (point_ids_bounded _ _ _ _ _ _ Hf) as Hids.
  split_and!; [done..|].
  apply sorted_lt_bounded_length; [apply unique_sorted|done].
Qed.

(** X8. Whenever [process_one_scene] reaches [save_fused_feature], the
    point cloud was loaded and at least one shard file was missing, and
    the call receives the number of points of the cloud, [out_dir], the
    scene id of [data_path], a feature bank of [n_points] rows of
    [args.feat_dim] entries, and strictly increasing point ids below
    [n_points]. *)
Theorem saved_call_contract (w : World F) (data_path out_dir : string) (args : Args)
    (call : SaveCall F) (extracted : list nat) :
  process_one_scene w data_path out_dir args = Saved call extracted →
  ∃ n_points,
    point_clouds w !! data_path = Some n_points ∧
    (∃ n, n < num_rand_file_per_scene args ∧
          join out_dir [shard_name (scene_id_of data_path) n] ∉ files w) ∧
    sv_n_points call = n_points ∧
    sv_out_dir call = out_dir ∧
    sv_scene_id call = scene_id_of data_path ∧
    length (feat_bank call) = n_points ∧
    Forall (λ row, length row = feat_dim args) (feat_bank call) ∧
    StronglySorted lt (point_ids call) ∧
    Forall (λ p, p < n_points) (point_ids call).
Proof.
  unfold process_one_scene. intros Hp.
  destruct (point_clouds w !! data_path) as [N|] eqn:Hload; [|done].
  exists N. split; [done|].
  destruct (Nat.eqb_spec (n_finished w out_dir (scene_id_of data_path)
              (num_rand_file_per_scene args)) (num_rand_file_per_scene args)) as [E|E];
    [done|].
  assert (Hmiss : ∃ n, n < num_rand_file_per_scene args ∧
            join out_dir [shard_name (scene_id_of data_path) n] ∉ files w).
  { destruct (decide (Exists (λ n, join out_dir [shard_name (scene_id_of data_path) n]
                                   ∉ files w) (seq 0 (num_rand_file_per_scene args))))
      as [Hex|Hall].
    - apply Exists_exists in Hex as (n & Hn & Hmiss). apply elem_of_seq in Hn.
      exists n. split; [lia|done].
    - exfalso. apply E, n_finished_all. intros n Hn.
      destruct (decide (join out_dir [shard_name (scene_id_of data_path) n] ∈ files w));
        [done|].
      exfalso. apply Hall, Exists_exists. exists n. split; [|done].
      apply elem_of_seq. lia. }
  split; [done|]. unfold fuse_and_save in Hp.
  destruct (fuse_views _ _ _ _ _) as [st|] eqn:Hf; [|done].
  destruct (bank_shape _ _ st (fuse_views_shape _ _ _ _ _ _ Hf)) as [Hb1 Hb2].
  pose proof (point_ids_bounded _ _ _ _ _ _ Hf) as Hi1.
  simpl in Hp. injection Hp as <- _. simpl. split_and!; [done..|apply unique_sorted|done].
Qed.

End Ledger.


(** [outputs_shape] on the same scene. *)
Lemma outputs_shape_witness :
  ∃ st, fuse_views OnTheFly 3 2 [frame_first_only; frame_blind] [] = Some st ∧
        length (feat_bank_of st) = 3 ∧
        Forall (λ row, length row = 2) (feat_bank_of st) ∧
        Forall (λ p, p < 3) (point_ids_of st) ∧
        length (point_ids_of st) ≤ 3.
Proof.
  destruct (fuse_views OnTheFly 3 2 [frame_first_only; frame_blind] []) as [st|] eqn:Hf;
    [|vm_compute in Hf; discriminate].
  exists st. split; [reflexivity|]. exact (outputs_shape OnTheFly 3 2 _ [] st Hf).
Defined.

(** [saved_call_contract] on the validation scene with no frame and no
    shard. *)
Lemma saved_call_contract_witness :
  ∃ call ex,
    process_one_scene empty_scene "data/scannet_3d/val/scene0479_00_vh_clean_2.pth" "out"
      val_args = Saved call ex ∧
    sv_n_points call = 3 ∧ sv_scene_id call = "scene0479_00" ∧
    length (feat_bank call) = 3.
Proof.
  destruct (process_one_scene empty_scene "data/scannet_3d/val/scene0479_00_vh_clean_2.pth"
              "out" val_args) as [| |call ex] eqn:Hp;
    [vm_compute in Hp; discriminate..|].
  exists call, ex. split; [reflexivity|].
  destruct (saved_call_contract _ _ _ _ _ _ Hp)
    as (n & Hn & _ & Hn' & _ & Hid & Hlen & _).
  assert (n = 3) as -> by (vm_compute in Hn; congruence).
  split_and!; [exact Hn'| |exact Hlen].
  rewrite Hid. apply (scene_id_of_join "data/scannet_3d" ["val"]).
Defined.

(** ** The binary32 counter and the rows of unseen points *)

Section Saturation.
Local Open Scope Z_scope.




End Saturation.



(** ** Occurrences and replacement in strings *)

Lemma str_prefix_nil s : String.prefix "" s = true.
Proof. by destruct s. Qed.

Lemma str_prefix_cons c pat x s :
  String.prefix (String c pat) (String x s) = bool_decide (c = x) && String.prefix pat s.
Proof.
  simpl. destruct (ascii_dec c x);
    [by rewrite bool_decide_eq_true_2|by rewrite bool_decide_eq_false_2].
Qed.

Lemma occurs_false_nonempty pat s : occurs pat s = false → pat ≠ "".
Proof. intros Ho ->. destruct s; simpl in Ho; done. Qed.

Lemma occurs_cons pat x s :
  occurs pat (String x s) = String.prefix pat (String x s) || occurs pat s.
Proof. reflexivity. Qed.

Lemma prefix_occurs pat s : String.prefix pat s = true → occurs pat s = true.
Proof. intros Hp. destruct s; [|rewrite occurs_cons]; [cbn [occurs]|]; by rewrite Hp. Qed.

(** A match that starts in [a] and does not contain [c] lies in [a]. *)
Lemma prefix_before_char pat : ∀ a c b,
  has_char c pat = false → String.prefix pat (a +:+ String c b) = true →
  String.prefix pat a = true.
Proof.
  induction pat as [|o pat IH]; intros a c b Hc Hp; [apply str_prefix_nil|].
  simpl in Hc. apply orb_false_iff in Hc as [Hoc Hc].
  destruct a as [|x a].
  - rewrite app_nil_l', str_prefix_cons in Hp. apply andb_true_iff in Hp as [Hp _].
    apply bool_decide_eq_true in Hp. subst. by rewrite Ascii.eqb_refl in Hoc.
  - rewrite app_cons, str_prefix_cons in Hp. rewrite str_prefix_cons.
    apply andb_true_iff in Hp as [Hx Hp]. rewrite Hx. simpl. by eapply IH.
Qed.

Lemma prefix_char_false pat c b :
  pat ≠ "" → has_char c pat = false → String.prefix pat (String c b) = false.
Proof.
  destruct pat as [|o pat]; [done|]. intros _ Hc. simpl in Hc.
  apply orb_false_iff in Hc as [Hoc _]. rewrite str_prefix_cons.
  rewrite bool_decide_eq_false_2; [done|]. intros ->. by rewrite Ascii.eqb_refl in Hoc.
Qed.

Lemma occurs_sep pat a c b :
  has_char c pat = false → occurs pat a = false → occurs pat b = false →
  occurs pat (a +:+ String c b) = false.
Proof.
  intros Hc Ha Hb. induction a as [|x a IH].
  - rewrite app_nil_l', occurs_cons, Hb, prefix_char_false; [done| |done].
    by eapply occurs_false_nonempty.
  - rewrite occurs_cons in Ha. apply orb_false_iff in Ha as [Hp Ha].
    rewrite app_cons, occurs_cons, (IH Ha), orb_false_r.
    destruct (String.prefix pat (String x (a +:+ String c b))) eqn:E; [|done].
    rewrite <- app_cons in E. apply prefix_before_char in E; [|done]. congruence.
Qed.

Lemma replace_none old new s : occurs old s = false → replace old new s = s.
Proof.
  unfold replace. induction s as [|x s IH]; [done|]. intros Ho.
  rewrite occurs_cons in Ho. apply orb_false_iff in Ho as [Hp Ho].
  cbn [replace_from]. rewrite Hp. by rewrite IH.
Qed.

Lemma replace_from_skip old new : ∀ a b,
  replace_from old new (String.length a) (a +:+ b) = replace old new b.
Proof. induction a as [|x a IH]; intros b; [by destruct b|]. rewrite app_cons. simpl. apply IH. Qed.

Lemma str_prefix_app pat b : String.prefix pat (pat +:+ b) = true.
Proof.
  induction pat as [|o pat IH]; [apply str_prefix_nil|].
  rewrite app_cons, str_prefix_cons, IH. by rewrite bool_decide_eq_true_2.
Qed.

Lemma replace_match old new b :
  old ≠ "" → replace old new (old +:+ b) = new +:+ replace old new b.
Proof.
  intros Hne. destruct old as [|o old]; [done|]. unfold replace.
  rewrite app_cons. cbn [replace_from]. rewrite <- app_cons, str_prefix_app.
  f_equal. cbn [String.length]. rewrite Nat.sub_succ, Nat.sub_0_r.
  apply replace_from_skip.
Qed.

Lemma replace_sep old new a c b :
  has_char c old = false → occurs old a = false →
  replace old new (a +:+ String c b) = a +:+ String c (replace old new b).
Proof.
  intros Hc Ha. induction a as [|x a IH].
  - rewrite !app_nil_l'. unfold replace. cbn [replace_from].
    rewrite prefix_char_false; [done| |done]. by eapply occurs_false_nonempty.
  - rewrite occurs_cons in Ha. apply orb_false_iff in Ha as [Hp Ha].
    rewrite !app_cons. unfold replace in *. cbn [replace_from].
    destruct (String.prefix old (String x (a +:+ String c b))) eqn:E.
    + rewrite <- app_cons in E. apply prefix_before_char in E; [|done]. congruence.
    + by rewrite IH.
Qed.

(** The pattern [c0 old'] at the end of a string in which [old'] does
    not occur. *)
Lemma replace_suffix c0 old' new a :
  has_char c0 old' = false → occurs old' a = false →
  replace (String c0 old') new (a +:+ String c0 old') = a +:+ new.
Proof.
  intros Hc Ha. induction a as [|x a IH].
  - rewrite !app_nil_l'.
    assert (E : String c0 old' = String c0 old' +:+ "").
    { clear. induction (String c0 old') as [|y t IHt]; [done|]. by rewrite app_cons, <- IHt. }
    rewrite E at 2. rewrite replace_match by done. unfold replace. simpl.
    clear. induction new as [|y t IHt]; [done|]. by rewrite app_cons, IHt.
  - rewrite occurs_cons in Ha. apply orb_false_iff in Ha as [Hp Ha].
    rewrite !app_cons. unfold replace in *. cbn [replace_from].
    destruct (String.prefix (String c0 old') (String x (a +:+ String c0 old'))) eqn:E.
    + rewrite str_prefix_cons in E. apply andb_true_iff in E as [_ E].
      apply prefix_before_char in E; [|done].
      apply prefix_occurs in E. congruence.
    + by rewrite IH.
Qed.

Lemma occurs_under_dir pat scene dir name :
  has_char "/" pat = false →
  occurs pat scene = false → occurs pat dir = false → occurs pat name = false →
  occurs pat (scene +:+ String "/" (dir +:+ String "/" name)) = false.
Proof. intros Hc Hs Hd Hn. by repeat apply occurs_sep. Qed.

(** A match cannot start in a text that lacks the first character of
    the pattern. *)
Lemma occurs_after o pat' new t :
  has_char o new = false → occurs (String o pat') t = false →
  occurs (String o pat') (new +:+ t) = false.
Proof.
  intros Hc Ht. induction new as [|n new IH]; [done|].
  simpl in Hc. apply orb_false_iff in Hc as [Hn Hc].
  rewrite app_cons, occurs_cons, (IH Hc), str_prefix_cons, bool_decide_eq_false_2; [done|].
  intros ->. by rewrite Ascii.eqb_refl in Hn.
Qed.

(** What the output of [replace] starts with, the input started with,
    as far as the replacement text is not reached. *)
Lemma prefix_of_replaced old n new' : ∀ q s,
  has_char n q = false →
  String.prefix q (replace old (String n new') s) = true → String.prefix q s = true.
Proof.
  induction q as [|q0 q IH]; intros s Hn Hp; [apply str_prefix_nil|].
  simpl in Hn. apply orb_false_iff in Hn as [Hq0 Hn].
  destruct s as [|x s]; [done|]. unfold replace in *. cbn [replace_from] in Hp.
  destruct (String.prefix old (String x s)).
  - rewrite app_cons, str_prefix_cons in Hp. apply andb_true_iff in Hp as [Hp _].
    apply bool_decide_eq_true in Hp. subst. by rewrite Ascii.eqb_refl in Hq0.
  - rewrite str_prefix_cons in *. apply andb_true_iff in Hp as [Hx Hp].
    rewrite Hx. simpl. by apply IH.
Qed.

Lemma replace_from_clean o old' n new' : ∀ s k,
  has_char n (String o old') = false → has_char o (String n new') = false →
  occurs (String o old') (replace_from (String o old') (String n new') k s) = false.
Proof.
  intros s k Hn Ho. revert k. induction s as [|x s IH]; intros k; [done|].
  destruct k as [|k]; cbn [replace_from]; [|apply IH].
  destruct (String.prefix (String o old') (String x s)) eqn:E.
  - apply occurs_after; [done|apply IH].
  - rewrite occurs_cons, IH, orb_false_r.
    destruct (String.prefix (String o old') (String x (replace_from _ _ 0 s))) eqn:E'; [|done].
    rewrite str_prefix_cons in E, E'. apply andb_true_iff in E' as [Hx Hp].
    simpl in Hn. apply orb_false_iff in Hn as [_ Hn].
    apply (prefix_of_replaced _ _ _ _ _ Hn) in Hp. by rewrite Hx, Hp in E.
Qed.

(** A replacement text that shares no character with [pat] brings no
    occurrence of [pat] about. *)
Lemma occurs_skip_new pat new t :
  pat ≠ "" → (∀ c, has_char c new = true → has_char c pat = false) →
  occurs pat (new +:+ t) = true → occurs pat t = true.
Proof.
  intros Hne Hnew. induction new as [|n new IH]; [done|].
  rewrite app_cons, occurs_cons. intros Ho. apply orb_true_iff in Ho as [Hp|Ho].
  - destruct pat as [|p0 pat]; [done|]. rewrite str_prefix_cons in Hp.
    apply andb_true_iff in Hp as [Hp _]. apply bool_decide_eq_true in Hp. subst.
    specialize (Hnew n). simpl in Hnew. rewrite Ascii.eqb_refl in Hnew. by discriminate Hnew.
  - apply IH; [|done]. intros c Hc. apply Hnew. simpl. by rewrite Hc, orb_true_r.
Qed.

Lemma replace_from_keeps pat old n new' : ∀ s k,
  pat ≠ "" → (∀ c, has_char c (String n new') = true → has_char c pat = false) →
  occurs pat (replace_from old (String n new') k s) = true → occurs pat s = true.
Proof.
  intros s k Hne Hnew. revert k. induction s as [|x s IH]; intros k Ho; [done|].
  rewrite occurs_cons. destruct k as [|k]; cbn [replace_from] in Ho.
  - destruct (String.prefix old (String x s)) eqn:E.
    + apply occurs_skip_new in Ho; [|done..]. apply IH in Ho. by rewrite Ho, orb_true_r.
    + rewrite occurs_cons in Ho. apply orb_true_iff in Ho as [Hp|Ho].
      * destruct pat as [|p0 pat]; [done|]. rewrite str_prefix_cons in *.
        apply andb_true_iff in Hp as [Hx Hp]. rewrite Hx. simpl.
        rewrite (prefix_of_replaced old n new' pat s); [done| |done].
        specialize (Hnew n). simpl in Hnew. rewrite Ascii.eqb_refl in Hnew.
        specialize (Hnew eq_refl). by apply orb_false_iff in Hnew as [_ ?].
      * apply IH in Ho. by rewrite Ho, orb_true_r.
  - apply IH in Ho. by rewrite Ho, orb_true_r.
Qed.

(** ** The pose and depth files of a frame, lines 86 and 90 *)

(** X11. For a colour frame [<scene>/color/<name>.jpg] whose scene
    directory and name contain neither [color] nor [jpg], the pose is
    read from [<scene>/pose/<name>.txt] and the depth image from
    [<scene>/depth/<name>.png]. *)
Theorem pose_and_depth_paths (scene name : string) :
  occurs "color" scene = false → occurs "jpg" scene = false →
  occurs "color" name = false → occurs "jpg" name = false →
  posepath (scene +:+ "/color/" +:+ name +:+ ".jpg")
  = scene +:+ "/pose/" +:+ name +:+ ".txt" ∧
  depthpath (scene +:+ "/color/" +:+ name +:+ ".jpg")
  = scene +:+ "/depth/" +:+ name +:+ ".png".
Proof.
  intros Hcs Hjs Hcn Hjn.
  assert (Hin : ∀ new, replace "color" new (scene +:+ "/color/" +:+ name +:+ ".jpg")
                       = scene +:+ String "/" (new +:+ String "/" (name +:+ String "." "jpg"))).
  { intros new.
    change (scene +:+ "/color/" +:+ name +:+ ".jpg")
      with (scene +:+ String "/" ("color" +:+ String "/" (name +:+ String "." "jpg"))).
    rewrite replace_sep, replace_match by done. do 3 f_equal.
    apply replace_none. apply (occurs_sep _ ""); [done..|]. by apply occurs_sep. }
  assert (Hto : ∀ dir ext, scene +:+ String "/" (dir +:+ String "/" (name +:+ ext))
                = (scene +:+ String "/" (dir +:+ String "/" name)) +:+ ext).
  { intros dir ext. rewrite !append_assoc, app_cons. do 2 f_equal.
    by rewrite append_assoc, app_cons. }
  unfold posepath, depthpath. rewrite !Hin. split.
  - rewrite (Hto "pose" (String "." "jpg")).
    rewrite (replace_suffix "." "jpg" ".txt"); [|done|by apply occurs_under_dir].
    by rewrite <- (Hto "pose" ".txt").
  - rewrite (Hto "depth" (String "." "jpg")).
    rewrite (replace_sep "jpg" "png" _ "."); [|done|by apply occurs_under_dir].
    change (replace "jpg" "png" "jpg") with "png".
    by rewrite <- (Hto "depth" ".png").
Qed.

(** [pose_and_depth_paths] on frame 120 of scene0479_00. *)
Lemma pose_and_depth_paths_witness :
  posepath "data/scannet_2d/scene0479_00/color/120.jpg"
  = "data/scannet_2d/scene0479_00/pose/120.txt" ∧
  depthpath "data/scannet_2d/scene0479_00/color/120.jpg"
  = "data/scannet_2d/scene0479_00/depth/120.png".
Proof.
  exact (pose_and_depth_paths "data/scannet_2d/scene0479_00" "120"
           eq_refl eq_refl eq_refl eq_refl).
Defined.

(** X12. [str.replace] rewrites every occurrence, not the directory
    name only: whatever [img_dir] is, neither the pose path nor the
    depth path contains [color] any more. A [color] in the name of the
    dataset or scene directory is replaced as well. *)
Theorem color_replaced_everywhere (img_dir : string) :
  occurs "color" (posepath img_dir) = false ∧ occurs "color" (depthpath img_dir) = false.
Proof.
  unfold posepath, depthpath. split.
  - destruct (occurs "color" (replace ".jpg" ".txt" (replace "color" "pose" img_dir))) eqn:E;
      [|done].
    apply replace_from_keeps in E; [|done|no_common_char].
    unfold replace in E. by rewrite replace_from_clean in E.
  - destruct (occurs "color" (replace "jpg" "png" (replace "color" "depth" img_dir))) eqn:E;
      [|done].
    apply replace_from_keeps in E; [|done|no_common_char].
    unfold replace in E. by rewrite replace_from_clean in E.
Qed.

(** ** The order of the colour frames, line 68 *)

Section Sorting.
Context {A : Type}.
Implicit Types (l : list (Z * A)).

Lemma insert_by_key_perm k (x : A) l : insert_by_key k x l ≡ₚ (k, x) :: l.
Proof.
  induction l as [|ky l IH]; simpl; [done|].
  destruct (k <=? ky.1)%Z; [done|]. rewrite IH. apply Permutation_swap.
Qed.

Lemma sort_keyed_perm l : sort_keyed l ≡ₚ l.
Proof.
  induction l as [|[k x] l IH]; simpl; [done|].
  by rewrite insert_by_key_perm, IH.
Qed.

Lemma insert_by_key_sorted k (x : A) l :
  StronglySorted (λ a b, (a.1 ≤ b.1)%Z) l →
  StronglySorted (λ a b, (a.1 ≤ b.1)%Z) (insert_by_key k x l).
Proof.
  induction 1 as [|ky l Hs IH Hle]; simpl; [repeat constructor|].
  destruct (Z.leb_spec k ky.1) as [Hk|Hk].
  - constructor; [by constructor|]. constructor; [done|].
    eapply Forall_impl; [done|]. simpl. intros; lia.
  - constructor; [done|]. rewrite insert_by_key_perm. constructor; [simpl; lia|done].
Qed.

Lemma sort_keyed_sorted l : StronglySorted (λ a b, (a.1 ≤ b.1)%Z) (sort_keyed l).
Proof.
  induction l as [|[k x] l IH]; simpl; [constructor|]. by apply insert_by_key_sorted.
Qed.

Lemma insert_by_key_stable k0 k (x : A) l :
  filter (λ kx, kx.1 = k0) (insert_by_key k x l) = filter (λ kx, kx.1 = k0) ((k, x) :: l).
Proof.
  induction l as [|ky l IH]; cbn [insert_by_key]; [done|].
  destruct (Z.leb_spec k ky.1) as [Hk|Hk]; [reflexivity|].
  rewrite (filter_cons _ ky), IH, !filter_cons. simpl.
  destruct (decide (k = k0)) as [->|Hne]; [|done].
  destruct (decide (ky.1 = k0)); [lia|done].
Qed.

Lemma sort_keyed_stable k0 l :
  filter (λ kx, kx.1 = k0) (sort_keyed l) = filter (λ kx, kx.1 = k0) l.
Proof.
  induction l as [|[k x] l IH]; simpl; [done|].
  by rewrite insert_by_key_stable, !filter_cons, IH.
Qed.

Lemma zip_keys (key : A → option Z) (xs : list A) ks :
  mapM key xs = Some ks →
  length ks = length xs ∧ Forall (λ kx, key kx.2 = Some kx.1) (zip ks xs).
Proof.
  intros Hk. apply mapM_Some in Hk. split; [symmetry; by eapply Forall2_length|].
  induction Hk; simpl; constructor; done.
Qed.

Lemma filter_by_key (key : A → option Z) k0 l :
  Forall (λ kx, key kx.2 = Some kx.1) l →
  filter (λ x, key x = Some k0) l.*2 = (filter (λ kx, kx.1 = k0) l).*2.
Proof.
  induction 1 as [|[k x] l Hk Hl IH]; [done|].
  rewrite fmap_cons, !filter_cons, IH. simpl in *. rewrite Hk.
  repeat case_decide; simplify_eq/=; done.
Qed.

Lemma sorted_by_key_spec (key : A → option Z) (xs : list A) :
  (is_Some (sorted_by_key key xs) ↔ Forall (λ x, is_Some (key x)) xs) ∧
  ∀ ys, sorted_by_key key xs = Some ys →
    ys ≡ₚ xs ∧
    (∃ ks, mapM key ys = Some ks ∧ StronglySorted Z.le ks) ∧
    ∀ k, filter (λ x, key x = Some k) ys = filter (λ x, key x = Some k) xs.
Proof.
  split.
  - assert (Hk : is_Some (mapM key xs) ↔ Forall (λ x, is_Some (key x)) xs)
      by apply mapM_is_Some.
    rewrite <- Hk. unfold sorted_by_key.
    destruct (mapM key xs); simpl; split; eauto; by intros [].
  - intros ys Hs. unfold sorted_by_key in Hs.
    destruct (mapM key xs) as [ks|] eqn:Hk; simplify_eq/=.
    destruct (zip_keys key xs ks Hk) as [Hlen Hkeys].
    assert (Hkeys' : Forall (λ kx, key kx.2 = Some kx.1) (sort_keyed (zip ks xs))).
    { by rewrite sort_keyed_perm. }
    split_and!.
    + rewrite sort_keyed_perm, snd_zip; [done|lia].
    + exists (sort_keyed (zip ks xs)).*1. split.
      * apply mapM_Some. clear -Hkeys'.
        induction Hkeys' as [|[k x] l Hk Hl IH]; simpl; constructor; done.
      * eapply (StronglySorted_fmap fst); [|apply sort_keyed_sorted]. done.
    + intros k. rewrite (filter_by_key key k _ Hkeys'), sort_keyed_stable.
      rewrite <- (filter_by_key key k _ Hkeys), snd_zip; [done|lia].
Qed.

End Sorting.

(** X13. Line 68 raises exactly when the key [int(basename(x)[:-4])] of
    some globbed path raises. Otherwise [img_dirs] is a rearrangement of
    the globbed paths, no path lost or repeated, in non-decreasing order
    of their keys, and paths of equal keys keep the order [glob] gave
    them. *)
Theorem img_dirs_sorted (py_int : string → option Z) (globbed : list string) :
  (is_Some (img_dirs_of py_int globbed)
   ↔ Forall (λ x, is_Some (frame_key py_int x)) globbed) ∧
  ∀ img_dirs, img_dirs_of py_int globbed = Some img_dirs →
    img_dirs ≡ₚ globbed ∧
    (∃ ks, mapM (frame_key py_int) img_dirs = Some ks ∧ StronglySorted Z.le ks) ∧
    ∀ k, filter (λ x, frame_key py_int x = Some k) img_dirs
         = filter (λ x, frame_key py_int x = Some k) globbed.
Proof. apply sorted_by_key_spec. Qed.

Lemma string_of_uint_no_slash d : has_slash (NilEmpty.string_of_uint d) = false.
Proof. induction d; simpl; done. Qed.

Lemma fmt_d_no_slash n : has_slash (fmt_d n) = false.
Proof. apply string_of_uint_no_slash. Qed.

Lemma length_append a b : String.length (a +:+ b) = String.length a + String.length b.
Proof. induction a as [|x a IH]; [done|]. rewrite app_cons. simpl. by rewrite IH. Qed.

Lemma substring_append a b : String.substring 0 (String.length a) (a +:+ b) = a.
Proof.
  induction a as [|x a IH]; [by destruct b|]. rewrite app_cons. simpl. by rewrite IH.
Qed.

Lemma drop_last4_ext a ext : String.length ext = 4 → drop_last4 (a +:+ ext) = a.
Proof.
  intros He. unfold drop_last4. rewrite length_append, He.
  replace (String.length a + 4 - 4) with (String.length a) by lia.
  apply substring_append.
Qed.

Lemma frame_key_frame_path py_int scene n :
  frame_key py_int (frame_path scene n) = py_int (fmt_d n).
Proof.
  unfold frame_key, frame_path.
  change (scene +:+ "/color/" +:+ fmt_d n +:+ ".jpg")
    with (scene +:+ "/color/" +:+ (fmt_d n +:+ ".jpg")).
  rewrite <- append_assoc, last_component_dir.
  - by rewrite drop_last4_ext.
  - by rewrite ends_with_slash_app_r.
  - by rewrite has_slash_app, fmt_d_no_slash.
Qed.

(** X14. When [glob] returns the frames [<scene>/color/<n>.jpg] of the
    numbers [ns] in any order, and [int] reads a number back from its
    decimal digits, [img_dirs] lists them by increasing number (frame 20
    before frame 100), not in the order of their names as strings. *)
Theorem frames_in_numeric_order (py_int : string → option Z) (scene : string)
    (ns : list nat) :
  (∀ n, py_int (fmt_d n) = Some (Z.of_nat n)) →
  ∃ ns', img_dirs_of py_int (frame_path scene <$> ns) = Some (frame_path scene <$> ns') ∧
         ns' ≡ₚ ns ∧ StronglySorted le ns'.
Proof.
  intros Hint.
  set (tag := λ n, (Z.of_nat n, frame_path scene n)).
  assert (Hk : mapM (frame_key py_int) (frame_path scene <$> ns) = Some (Z.of_nat <$> ns)).
  { apply mapM_Some. apply Forall2_fmap. apply Forall_Forall2_diag, Forall_forall.
    intros n _. by rewrite frame_key_frame_path. }
  assert (Hzip : zip (Z.of_nat <$> ns) (frame_path scene <$> ns) = tag <$> ns).
  { clear. induction ns as [|n ns IH]; [done|]. rewrite !fmap_cons. cbn [zip zip_with].
    by rewrite IH. }
  unfold img_dirs_of, sorted_by_key. rewrite Hk. cbn [mbind option_bind]. rewrite Hzip.
  pose proof (sort_keyed_perm (tag <$> ns)) as Hperm.
  assert (Htag : Forall (λ kx, kx = tag (Z.to_nat kx.1)) (sort_keyed (tag <$> ns))).
  { rewrite Hperm. apply Forall_fmap, Forall_forall. intros n _. simpl.
    unfold tag. by rewrite Nat2Z.id. }
  exists ((λ kx, Z.to_nat kx.1) <$> sort_keyed (tag <$> ns)). split_and!.
  - f_equal. rewrite <- list_fmap_compose. apply Forall_fmap_ext_1.
    eapply Forall_impl; [exact Htag|]. intros kx Hkx. simpl. by rewrite Hkx at 1.
  - rewrite Hperm, <- list_fmap_compose. etrans; [|apply Permutation_refl'; apply list_fmap_id].
    apply Permutation_refl', list_fmap_ext. intros _ n _. simpl. apply Nat2Z.id.
  - eapply StronglySorted_fmap; [|apply sort_keyed_sorted]. intros x y Hxy. simpl in *. lia.
Qed.

Lemma fmt_d_nonempty n : fmt_d n ≠ "".
Proof.
  unfold fmt_d. intros Hn.
  assert (Hu := NilEmpty.usu (Nat.to_uint n)). rewrite Hn in Hu. simpl in Hu.
  injection Hu as Hu. assert (Hz := Unsigned.of_to n). rewrite <- Hu in Hz. simpl in Hz.
  subst n. done.
Qed.

Lemma int_of_digits_fmt n : int_of_digits (fmt_d n) = Some (Z.of_nat n).
Proof.
  unfold int_of_digits. rewrite bool_decide_eq_false_2 by apply fmt_d_nonempty.
  unfold fmt_d. by rewrite NilEmpty.usu; simpl; rewrite Unsigned.of_to.
Qed.

(** [frames_in_numeric_order] on the frames 100, 20 and 0. *)
Lemma frames_in_numeric_order_witness :
  ∃ ns', img_dirs_of int_of_digits (frame_path "scene0479_00" <$> [100; 20; 0])
         = Some (frame_path "scene0479_00" <$> ns') ∧
         ns' ≡ₚ [100; 20; 0] ∧ StronglySorted le ns'.
Proof. exact (frames_in_numeric_order int_of_digits "scene0479_00" [100; 20; 0] int_of_digits_fmt). Defined.

(** ** The scene id and the shard files, lines 41 and 57-59 *)

Lemma before_sep_none pat s : occurs pat s = false → before_sep pat s = s.
Proof.
  induction s as [|x s IH]; [done|]. rewrite occurs_cons. intros Ho.
  apply orb_false_iff in Ho as [Hp Ho]. cbn [before_sep]. by rewrite Hp, IH.
Qed.

Lemma before_sep_match pat b : pat ≠ "" → before_sep pat (pat +:+ b) = "".
Proof.
  destruct pat as [|p0 pat]; [done|]. intros _. rewrite app_cons. cbn [before_sep].
  by rewrite <- app_cons, str_prefix_app.
Qed.

Lemma before_sep_vh sid rest :
  occurs "_vh" sid = false → before_sep "_vh" (sid +:+ "_vh" +:+ rest) = sid.
Proof.
  induction sid as [|x sid IH]; [intros _; rewrite app_nil_l'; by apply before_sep_match|].
  rewrite occurs_cons. intros Ho.
  apply orb_false_iff in Ho as [Hp Ho]. rewrite app_cons. cbn [before_sep].
  assert (Hno : String.prefix "_vh" (String x (sid +:+ "_vh" +:+ rest)) = false).
  { destruct sid as [|c1 [|c2 sid]].
    - rewrite app_nil_l'. change ("_vh" +:+ rest) with (String "_" (String "v" (String "h" rest))).
      rewrite !str_prefix_cons. rewrite (bool_decide_eq_false_2 ("v"%char = "_"%char)) by done.
      by rewrite andb_false_r.
    - change (String c1 "" +:+ "_vh" +:+ rest)
        with (String c1 (String "_" (String "v" (String "h" rest)))).
      rewrite !str_prefix_cons. rewrite (bool_decide_eq_false_2 ("h"%char = "_"%char)) by done.
      by rewrite !andb_false_r.
    - rewrite !app_cons. rewrite !str_prefix_cons in *. by rewrite str_prefix_nil in *. }
  by rewrite Hno, IH.
Qed.

Lemma no_slash_prefix f : has_slash f = false → String.prefix "/" f = false.
Proof.
  destruct f as [|c f]; [done|]. rewrite str_prefix_cons, str_prefix_nil, andb_true_r.
  cbn [has_slash]. destruct (Ascii.eqb_spec c slash) as [->|Hc]; [done|].
  intros _. apply bool_decide_eq_false_2. intros Heq. by subst.
Qed.

(** X15. The scene id of a point-cloud file [<dir>/<sid>_vh<rest>] is
    [<sid>], whatever the directory is, when [<sid>] contains neither a
    slash nor [_vh] and [<rest>] contains no slash. *)
Theorem scene_id_round_trip (dir sid rest : string) :
  has_slash sid = false → has_slash rest = false → occurs "_vh" sid = false →
  scene_id_of (join dir [sid +:+ "_vh" +:+ rest]) = sid.
Proof.
  intros Hs Hr Ho. unfold scene_id_of, join. simpl.
  rewrite last_component_join_step.
  - by apply before_sep_vh.
  - apply no_slash_prefix. by rewrite !has_slash_app, Hs, Hr.
  - by rewrite !has_slash_app, Hs, Hr.
Qed.

(** [scene_id_round_trip] on a training scene. *)
Lemma scene_id_round_trip_witness :
  scene_id_of (join "data/scannet_3d/train" ["scene0000_01_vh_clean_2.pth"]) = "scene0000_01".
Proof.
  exact (scene_id_round_trip "data/scannet_3d/train" "scene0000_01" "_clean_2.pth"
           eq_refl eq_refl eq_refl).
Defined.

(** X16. A file name without [_vh] is its own scene id, extension
    included: [split("_vh")[0]] is then the whole name. *)
Theorem scene_id_without_marker (dir f : string) :
  has_slash f = false → occurs "_vh" f = false →
  scene_id_of (join dir [f]) = f.
Proof.
  intros Hs Ho. unfold scene_id_of, join. simpl.
  rewrite last_component_join_step; [by apply before_sep_none|by apply no_slash_prefix|done].
Qed.

(** [scene_id_without_marker] on [scene0000_01.pth]. *)
Lemma scene_id_without_marker_witness :
  scene_id_of (join "data/scannet_3d/train" ["scene0000_01.pth"]) = "scene0000_01.pth".
Proof.
  exact (scene_id_without_marker "data/scannet_3d/train" "scene0000_01.pth" eq_refl eq_refl).
Defined.

Lemma last_component_no_slash s : has_slash (last_component s) = false.
Proof.
  induction s as [|c s IH]; [done|]. simpl.
  destruct (has_slash s) eqn:Hs; [done|].
  destruct (Ascii.eqb c slash) eqn:Hc; [done|]. simpl. by rewrite Hc.
Qed.

Lemma before_sep_no_slash pat s : has_slash s = false → has_slash (before_sep pat s) = false.
Proof.
  induction s as [|c s IH]; [done|]. simpl.
  destruct (Ascii.eqb c slash) eqn:Hc; [done|]. intros Hs.
  destruct pat as [|p0 pat]; [done|].
  destruct (ascii_dec p0 c); [|simpl; rewrite Hc; by apply IH].
  destruct (String.prefix pat s); [done|]. simpl. rewrite Hc. by apply IH.
Qed.

Lemma scene_id_no_slash data_path : has_slash (scene_id_of data_path) = false.
Proof. apply before_sep_no_slash, last_component_no_slash. Qed.

Lemma shard_name_no_slash scene_id n :
  has_slash scene_id = false → has_slash (shard_name scene_id n) = false.
Proof.
  intros Hs. unfold shard_name. by rewrite !has_slash_app, Hs, fmt_d_no_slash.
Qed.

(** X17. Whatever [data_path] is, its scene id contains no slash, so
    the shard file tested at line 59 lies directly in [out_dir]: its
    path is [out_dir], a slash unless [out_dir] is empty or ends with
    one, and the shard name [scene_id_n.pt]. *)
Theorem shard_directly_in_out_dir (data_path out_dir : string) (n : nat) :
  let shard := shard_name (scene_id_of data_path) n in
  has_slash (scene_id_of data_path) = false ∧
  last_component (join out_dir [shard]) = shard ∧
  join out_dir [shard]
  = out_dir +:+ (if ends_with_slash out_dir || bool_decide (out_dir = "") then "" else "/")
    +:+ shard.
Proof.
  intros shard. pose proof (scene_id_no_slash data_path) as Hs.
  pose proof (shard_name_no_slash _ n Hs) as Hn. fold shard in Hn.
  split_and!; [done| |].
  - unfold join. simpl. by rewrite last_component_join_step; [|apply no_slash_prefix|].
  - unfold join. simpl. unfold join_step. rewrite (no_slash_prefix _ Hn).
    by destruct (ends_with_slash out_dir || bool_decide (out_dir = "")).
Qed.

Lemma append_inj_r a b c : a +:+ c = b +:+ c → a = b.
Proof.
  revert b. induction a as [|x a IH]; intros [|y b] Heq; [done| | |].
  - apply (f_equal String.length) in Heq. rewrite app_nil_l', app_cons in Heq.
    simpl in Heq. rewrite length_append in Heq. lia.
  - apply (f_equal String.length) in Heq. rewrite app_nil_l', app_cons in Heq.
    simpl in Heq. rewrite length_append in Heq. lia.
  - rewrite !app_cons in Heq. injection Heq as -> Heq. f_equal. by apply IH.
Qed.

Lemma fmt_d_inj n m : fmt_d n = fmt_d m → n = m.
Proof.
  unfold fmt_d. intros Heq. apply Unsigned.to_uint_inj.
  assert (Hn := NilEmpty.usu (Nat.to_uint n)). rewrite Heq, NilEmpty.usu in Hn. congruence.
Qed.

Lemma shard_name_inj scene_id n m : shard_name scene_id n = shard_name scene_id m → n = m.
Proof.
  unfold shard_name. intros Heq. apply String.app_inj in Heq.
  apply (String.app_inj "_") in Heq. apply append_inj_r in Heq. by apply fmt_d_inj.
Qed.

Lemma shard_name_prefix scene_id n m :
  String.prefix "/" (shard_name scene_id n) = String.prefix "/" (shard_name scene_id m).
Proof.
  unfold shard_name. destruct scene_id as [|c s]; rewrite ?app_nil_l', !app_cons;
    by rewrite !str_prefix_cons, !str_prefix_nil.
Qed.

(** X18. The shard paths tested for different [n] are different files:
    [num_rand_file_per_scene] distinct files must exist for the scene
    to count as exported. *)
Theorem shard_paths_distinct (out_dir scene_id : string) (n m : nat) :
  join out_dir [shard_name scene_id n] = join out_dir [shard_name scene_id m] ↔ n = m.
Proof.
  split; [|by intros ->]. unfold join. simpl. unfold join_step.
  rewrite (shard_name_prefix scene_id n m).
  destruct (String.prefix "/" (shard_name scene_id m)); [apply shard_name_inj|].
  destruct (ends_with_slash out_dir || bool_decide (out_dir = "")); intros Heq.
  - apply String.app_inj in Heq. by eapply shard_name_inj.
  - apply String.app_inj in Heq. apply (String.app_inj "/") in Heq. by eapply shard_name_inj.
Qed.

(** ** The id range of [main], lines 185-193 *)

Lemma split_on_no_sep sep a : has_char sep a = false → split_on sep a = [a].
Proof.
  induction a as [|x a IH]; [done|]. simpl. destruct (Ascii.eqb x sep); [done|].
  simpl. intros Ha. by rewrite IH.
Qed.

Lemma split_on_sep sep a b :
  has_char sep a = false → split_on sep (a +:+ String sep b) = a :: split_on sep b.
Proof.
  induction a as [|x a IH].
  - intros _. rewrite app_nil_l'. simpl. by rewrite Ascii.eqb_refl.
  - rewrite app_cons. simpl. destruct (Ascii.eqb x sep); [done|]. simpl.
    intros Ha. by rewrite IH.
Qed.

Section Range.
Context {F : Type} `{Scalar F}.

Lemma run_scenes_from (w : World F) out_dir args id_range (paths : list string) : ∀ i,
  let sel := (filter (λ ip, in_id_range id_range ip.1 = true)
                (zip (seq i (length paths)) paths)).*2 in
  let calls := run_scenes w out_dir args id_range i paths in
  calls = (λ p, (p, process_one_scene w p out_dir args)) <$> take (length calls) sel ∧
  (length calls = length sel ∨ ∃ p, last calls = Some (p, Raised)) ∧
  (∀ j c, calls !! j = Some c → S j < length calls → c.2 ≠ Raised).
Proof.
  induction paths as [|path rest IH]; intros i; [simpl; split_and!; [done|by left|done]|].
  specialize (IH (S i)). cbn zeta in IH. destruct IH as (IH1 & IH2 & IH3).
  cbn [length seq zip zip_with run_scenes]. rewrite filter_cons. cbn [fst].
  assert (Hskip : match id_range with
                  | Some (lo, hi) =>
                      bool_decide (Z.of_nat i < lo)%Z || bool_decide (Z.of_nat i > hi)%Z
                  | None => false
                  end = negb (in_id_range id_range i)).
  { unfold in_id_range. destruct id_range as [[lo hi]|]; [|done].
    repeat case_bool_decide; simpl; try done; lia. }
  rewrite Hskip. destruct (in_id_range id_range i) eqn:Hin; simpl negb; cbv iota.
  - rewrite decide_True by done. rewrite fmap_cons. cbn [snd].
    destruct (process_one_scene w path out_dir args) as [| |call ex] eqn:Ho.
    + split_and!; [by simpl; rewrite Ho|right; by exists path|].
      intros [|j] c Hc Hj; simpl in *; [lia|done].
    + cbn [length take fmap list_fmap]. split_and!.
      * rewrite Ho. f_equal. exact IH1.
      * destruct IH2 as [IH2|(p & IH2)]; [left; simpl; by rewrite IH2|right].
        exists p. destruct (run_scenes w out_dir args id_range (S i) rest); [done|].
        done.
      * intros [|j] c Hc Hj; simpl in *; [by simplify_eq|]. apply (IH3 j c Hc). lia.
    + cbn [length take fmap list_fmap]. split_and!.
      * rewrite Ho. f_equal. exact IH1.
      * destruct IH2 as [IH2|(p & IH2)]; [left; simpl; by rewrite IH2|right].
        exists p. destruct (run_scenes w out_dir args id_range (S i) rest); [done|].
        done.
      * intros [|j] c Hc Hj; simpl in *; [by simplify_eq|]. apply (IH3 j c Hc). lia.
  - rewrite decide_False by done. done.
Qed.

(** X19. The loop of lines 188-193 calls [process_one_scene] on the
    paths whose index [i] satisfies [lo <= i <= hi], both ends
    included (on every path when no range is given), in order and with
    the same arguments, up to the first call that raises: only the last
    call made can have raised, and if none raised every selected path
    was processed. *)
Theorem id_range_inclusive (w : World F) (out_dir : string) (args : Args)
    (id_range : option (Z * Z)) (paths : list string) :
  let calls := run_scenes w out_dir args id_range 0 paths in
  calls = (λ p, (p, process_one_scene w p out_dir args))
          <$> take (length calls) (selected id_range paths) ∧
  (length calls = length (selected id_range paths) ∨ ∃ p, last calls = Some (p, Raised)) ∧
  (∀ j c, calls !! j = Some c → S j < length calls → c.2 ≠ Raised).
Proof. apply run_scenes_from. Qed.

Lemma parse_two_fields py_int a b (more_fields : option string) (more_args : list string) :
  has_char "," a = false → has_char "," b = false →
  parse_id_range py_int
    (Some ((a +:+ "," +:+ b +:+ match more_fields with None => "" | Some c => "," +:+ c end)
           :: more_args))
  = lo ← py_int a; hi ← py_int b; Some (Some (lo, hi)).
Proof.
  intros Ha Hb. unfold parse_id_range.
  change (a +:+ "," +:+ b +:+ match more_fields with None => "" | Some c => "," +:+ c end)
    with (a +:+ String "," (b +:+ match more_fields with
                                  | None => ""
                                  | Some c => String "," c
                                  end)).
  rewrite (split_on_sep _ a) by done.
  assert (Hsnd : ∃ tl, split_on "," (b +:+ match more_fields with
                                            | None => ""
                                            | Some c => String "," c
                                            end) = b :: tl).
  { destruct more_fields as [c|].
    - rewrite split_on_sep by done. eauto.
    - exists []. replace (b +:+ "") with b; [by apply split_on_no_sep|].
      clear. induction b as [|x b IH]; [done|]. by rewrite app_cons, <- IH. }
  destruct Hsnd as [tl ->]. done.
Qed.

(** X20. [main] reads the id range from the first two comma-separated
    fields of the first [--process_id_range] argument; further fields
    and further arguments are ignored. As [data_paths] holds the single
    path of index 0, the scene is processed exactly when [lo <= 0 <= hi]:
    a range such as [1,5] processes nothing. *)
Theorem id_range_argument (py_int : string → option Z) (w : World F)
    (data_dir split output_dir : string) (has_model : bool)
    (a b : string) (more_fields : option string) (more_args : list string) (lo hi : Z) :
  has_char "," a = false → has_char "," b = false →
  py_int a = Some lo → py_int b = Some hi →
  let r := a +:+ "," +:+ b +:+ match more_fields with None => "" | Some c => "," +:+ c end in
  let path := join (join data_dir ["scannet_3d"]) [split; "scene0479_00_vh_clean_2.pth"] in
  parse_id_range py_int (Some (r :: more_args)) = Some (Some (lo, hi)) ∧
  main py_int w data_dir split output_dir has_model (Some (r :: more_args))
  = if bool_decide (lo ≤ 0 ≤ hi)%Z
    then [(path, process_one_scene w path output_dir (configure split has_model data_dir))]
    else [].
Proof.
  intros Ha Hb Hlo Hhi r path.
  assert (Hparse : parse_id_range py_int (Some (r :: more_args)) = Some (Some (lo, hi))).
  { unfold r. rewrite parse_two_fields by done. by rewrite Hlo, Hhi. }
  split; [done|]. unfold main. rewrite Hparse. unfold data_paths. fold path.
  cbn [run_scenes]. change (Z.of_nat 0) with 0%Z.
  repeat case_bool_decide; simpl; try lia; try done;
    by destruct (process_one_scene w path output_dir _).
Qed.

(** X21. A first [--process_id_range] argument without a comma has no
    second field: line 187 raises, and no scene is processed. *)
Theorem id_range_without_comma (py_int : string → option Z) (w : World F)
    (data_dir split output_dir : string) (has_model : bool)
    (r : string) (more_args : list string) :
  has_char "," r = false →
  parse_id_range py_int (Some (r :: more_args)) = None ∧
  main py_int w data_dir split output_dir has_model (Some (r :: more_args)) = [].
Proof.
  intros Hr.
  assert (Hparse : parse_id_range py_int (Some (r :: more_args)) = None).
  { unfold parse_id_range. rewrite split_on_no_sep by done. simpl.
    by destruct (py_int r). }
  split; [done|]. unfold main. by rewrite Hparse.
Qed.

End Range.

(** [id_range_argument]: the range [1,5] processes nothing, the range
    [0,5] does. *)
Lemma id_range_argument_witness :
  main int_of_digits empty_scene "data" "val" "out" true (Some ["1,5"]) = [] ∧
  main int_of_digits empty_scene "data" "val" "out" true (Some ["0,5,9"; "7"]) ≠ [].
Proof.
  split.
  - exact (proj2 (id_range_argument int_of_digits empty_scene "data" "val" "out" true
                    "1" "5" None [] 1 5 eq_refl eq_refl eq_refl eq_refl)).
  - rewrite (proj2 (id_range_argument int_of_digits empty_scene "data" "val" "out" true
                      "0" "5" (Some "9") ["7"] 0 5 eq_refl eq_refl eq_refl eq_refl)).
    discriminate.
Defined.

(** [id_range_without_comma] on the argument [3]. *)
Lemma id_range_without_comma_witness :
  main int_of_digits empty_scene "data" "val" "out" true (Some ["3"]) = [].
Proof.
  exact (proj2 (id_range_without_comma int_of_digits empty_scene "data" "val" "out" true
                  "3" [] eq_refl)).
Defined.

(** ** The effect of one frame, lines 100-109 *)

Section OneFrame.
Context {F : Type} `{Scalar F}.


End OneFrame.

